(** * utilisation.c: reversed-reading decoder, sample store and usage calculator

    A shallow embedding of [src/utilisation.c].  The C program reads
    whitespace-delimited tokens from a text file, reverses each token in place
    with [strrev], converts it with [sscanf("%lf")], stores the readings in the
    fixed-size global [_InputData] and writes the percentage of readings at or
    above a trigger level to an output file.

    Conventions of the embedding:
    - [char] is [ascii]; a character buffer is a [list ascii]; a [char *] into
      the buffer is [option nat] ([None] is the NULL pointer, [Some p] the
      offset [p]);
    - [double] is the kernel's binary64 [float]; [int] is [Z];
    - code that touches memory runs in a small state-and-fault monad whose
      state is the buffer together with the chronological list of the reads
      and writes performed; an access outside an object is a [fault]
      (undefined behaviour in C). *)

From Stdlib Require Import List ZArith Bool Ascii String Lia PeanoNat.
From Stdlib Require Import Uint63 Floats.
Import ListNotations.

Set Implicit Arguments.
Local Set Warnings "-inexact-float".

(** ** Constants of the source *)

Definition MAX_STRING : nat := 64.
Definition MAX_INPUT_VALUES : nat := 255.
Definition DFLT_TRIGGER_LEVEL : float := 10.0%float.

(** ** Results of running C code *)

Inductive fault : Type :=
| OutOfBoundsRead (index : nat)      (* load outside the object *)
| OutOfBoundsWrite (index : nat)     (* store outside the object *)
| NullPointer                        (* string function on a NULL [char *] *)
| NullStream                         (* stdio call on a NULL [FILE *] *)
| SignedOverflow                     (* [int] arithmetic beyond INT_MAX *)
| LoopBudget.                        (* iteration budget of the model exhausted *)

Inductive result (A : Type) : Type :=
| Ok (a : A)
| Undefined (f : fault).

Arguments Ok {A} a.
Arguments Undefined {A} f.

(** ** Arrays

    A C array is a list of its elements.  [update l i x] is [l[i] = x]; it is
    [None] when [i] is outside the array. *)

Fixpoint update {A : Type} (l : list A) (i : nat) (x : A) : option (list A) :=
  match l, i with
  | [], _ => None
  | _ :: t, O => Some (x :: t)
  | h :: t, S j => option_map (cons h) (update t j x)
  end.

(** ** Characters *)

Definition NUL : ascii := Ascii.zero.

Definition is_nul (c : ascii) : bool := Ascii.eqb c NUL.

(** The bitwise exclusive or of two [char]s ([^] in C). *)
Definition xor_char (a b : ascii) : ascii :=
  match a, b with
  | Ascii a0 a1 a2 a3 a4 a5 a6 a7, Ascii b0 b1 b2 b3 b4 b5 b6 b7 =>
      Ascii (xorb a0 b0) (xorb a1 b1) (xorb a2 b2) (xorb a3 b3)
            (xorb a4 b4) (xorb a5 b5) (xorb a6 b6) (xorb a7 b7)
  end.

(** ** Character memory with an access trace *)

Module Mem.

Inductive event : Type :=
| Rd (addr : nat)
| Wr (addr : nat) (c : ascii).

Record state : Type := mk { bytes : list ascii; trace : list event }.

Definition M (A : Type) : Type := state -> result (A * state).

Definition ret {A} (a : A) : M A := fun s => Ok (a, s).

Definition bind {A B} (m : M A) (k : A -> M B) : M B :=
  fun s => match m s with
           | Ok (a, s') => k a s'
           | Undefined f => Undefined f
           end.

Definition fail {A} (f : fault) : M A := fun _ => Undefined f.

(** [*p] as an rvalue. *)
Definition load (p : nat) : M ascii :=
  fun s => match nth_error (bytes s) p with
           | Some c => Ok (c, mk (bytes s) (trace s ++ [Rd p]))
           | None => Undefined (OutOfBoundsRead p)
           end.

(** [*p = c]. *)
Definition store (p : nat) (c : ascii) : M unit :=
  fun s => match update (bytes s) p c with
           | Some l => Ok (tt, mk l (trace s ++ [Wr p c]))
           | None => Undefined (OutOfBoundsWrite p)
           end.

Definition is_write (e : event) : bool :=
  match e with Wr _ _ => true | Rd _ => false end.

Definition writes (t : list event) : list event := filter is_write t.

End Mem.

Notation "x <- m ;; k" := (Mem.bind m (fun x => k))
  (at level 61, m at next level, right associativity).
Notation "m ;;; k" := (Mem.bind m (fun _ => k))
  (at level 61, right associativity).

(** ** [strlen] and [strrev] *)

(** [strlen(str)]: scan from [p] to the terminating NUL.  The scan visits at
    most every byte of the buffer once, so the buffer length bounds it; leaving
    the buffer is an out-of-bounds read. *)
Fixpoint strlen_from (budget : nat) (p : nat) (n : nat) : Mem.M nat :=
  c <- Mem.load p ;;
  if is_nul c then Mem.ret n
  else match budget with
       | O => Mem.fail (OutOfBoundsRead (S p))
       | S b => strlen_from b (S p) (S n)
       end.

Definition strlen (p : nat) : Mem.M nat :=
  fun s => strlen_from (List.length (Mem.bytes s)) p 0 s.

(** [*p ^= *q;] *)
Definition xor_assign (p q : nat) : Mem.M unit :=
  a <- Mem.load p ;;
  b <- Mem.load q ;;
  Mem.store p (xor_char a b).

(** The body of the [for] loop of [strrev]: the three XOR assignments. *)
Definition xor_swap (p1 p2 : nat) : Mem.M unit :=
  xor_assign p1 p2 ;;;
  xor_assign p2 p1 ;;;
  xor_assign p1 p2.

(** [for (...; p2 > p1; ++p1, --p2) { ... }].  The guard is tested before the
    budget, so the budget is only consulted when another iteration is due. *)
Fixpoint strrev_loop (budget : nat) (p1 p2 : nat) : Mem.M unit :=
  if p1 <? p2 then
    match budget with
    | O => Mem.fail LoopBudget
    | S b => xor_swap p1 p2 ;;; strrev_loop b (S p1) (Nat.pred p2)
    end
  else Mem.ret tt.

(** [char *strrev(char *str)] *)
Definition strrev (str : option nat) : Mem.M (option nat) :=
  match str with
  | None => Mem.ret str                         (* ! str *)
  | Some p =>
      c <- Mem.load p ;;
      if is_nul c then Mem.ret str              (* ! *str *)
      else
        n <- strlen p ;;
        strrev_loop n p (p + n - 1) ;;;
        Mem.ret str
  end.

(** Run a memory computation on a buffer with an empty trace. *)
Definition run {A} (m : Mem.M A) (buf : list ascii) : result (A * Mem.state) :=
  m (Mem.mk buf []).

(** A string literal as a list of characters. *)
Definition chars (s : string) : list ascii := list_ascii_of_string s.

(** The bytes left in the buffer by a run, when it is defined. *)
Definition bytes_after {A} (r : result (A * Mem.state)) : option (list ascii) :=
  match r with
  | Ok (_, s) => Some (Mem.bytes s)
  | Undefined _ => None
  end.

(** *** Reference reversal

    The textbook in-place reversal the XOR version is compared with: the
    characters at mirrored positions are exchanged through a temporary. *)

Definition tmp_swap (p1 p2 : nat) : Mem.M unit :=
  tmp <- Mem.load p1 ;;
  b <- Mem.load p2 ;;
  Mem.store p1 b ;;;
  Mem.store p2 tmp.

Fixpoint naive_loop (budget : nat) (p1 p2 : nat) : Mem.M unit :=
  if p1 <? p2 then
    match budget with
    | O => Mem.fail LoopBudget
    | S b => tmp_swap p1 p2 ;;; naive_loop b (S p1) (Nat.pred p2)
    end
  else Mem.ret tt.

Definition strrev_naive (str : option nat) : Mem.M (option nat) :=
  match str with
  | None => Mem.ret str
  | Some p =>
      c <- Mem.load p ;;
      if is_nul c then Mem.ret str
      else
        n <- strlen p ;;
        naive_loop n p (p + n - 1) ;;;
        Mem.ret str
  end.

(** ** The [%lf] conversion of [sscanf]

    [sscanf] belongs to the C library; the program is built on Linux, against
    the GNU C library, whose scanner is modelled here.  A [%lf] directive
    works in two steps (C11 7.21.6.2).

    First the input item is read: after optional white space and an optional
    sign come either the letters NAN, or the letters INF, which must be
    followed by INITY in full when the next letter is an I, or a number: an
    optional [0x] prefix, then digits (hexadecimal ones after the prefix)
    with at most one point and, once a digit has been seen, one exponent
    marker ([e], or [p] after the prefix) followed by an optional sign and
    decimal digits.  Reading stops at the first character that cannot go on
    the item.  The directive fails, and nothing is stored, when the letters
    of NAN, INF or INFINITY are cut short, when the item has no character
    after its sign, or when it consists of the [0x] prefix alone.

    Then the item is handed to [strtod], which converts the longest prefix of
    the item that is a floating-point constant (so that an exponent marker
    left without digits is dropped); the directive fails when [strtod]
    converts nothing.  The value is rounded to the nearest binary64, ties to
    even. *)

Module Scan.

Definition code (c : ascii) : N := N_of_ascii c.

Definition is_space (c : ascii) : bool :=
  let n := code c in (n =? 32)%N || ((9 <=? n)%N && (n <=? 13)%N).

Definition is_digit (c : ascii) : bool :=
  let n := code c in (48 <=? n)%N && (n <=? 57)%N.

Definition lower (c : ascii) : ascii :=
  let n := code c in
  if (65 <=? n)%N && (n <=? 90)%N then ascii_of_N (n + 32) else c.

(** Value of a hexadecimal digit. *)
Definition hex_val (c : ascii) : option Z :=
  let n := code (lower c) in
  if (48 <=? n)%N && (n <=? 57)%N then Some (Z.of_N (n - 48))
  else if (97 <=? n)%N && (n <=? 102)%N then Some (Z.of_N (n - 87))
  else None.

Definition dec_val (c : ascii) : option Z :=
  if is_digit c then Some (Z.of_N (code c - 48)) else None.

(** Read the longest run of digits in base [base]: the accumulated value,
    the number of digits read and the unread rest. *)
Fixpoint digits (val : ascii -> option Z) (base : Z) (l : list ascii)
         (acc : Z) (cnt : nat) : Z * nat * list ascii :=
  match l with
  | c :: t =>
      match val c with
      | Some d => digits val base t (base * acc + d) (S cnt)
      | None => (acc, cnt, l)
      end
  | [] => (acc, cnt, l)
  end.

Definition sign (l : list ascii) : bool * list ascii :=
  match l with
  | "-"%char :: t => (true, t)
  | "+"%char :: t => (false, t)
  | _ => (false, l)
  end.

(** An exponent part introduced by the letter [mark]: the exponent value, or
    0 when the part is absent or malformed (then it is not consumed). *)
Definition exponent (mark : ascii) (l : list ascii) : Z :=
  match l with
  | c :: t =>
      if Ascii.eqb (lower c) mark then
        let (neg, t') := sign t in
        match digits dec_val 10 t' 0 0 with
        | (_, O, _) => 0
        | (e, S _, _) => if neg then - e else e
        end
      else 0
  | [] => 0
  end%Z.

(** Digits with an optional radix point: mantissa as an integer, number of
    digits seen in all, number of digits after the point, rest. *)
Definition mantissa (val : ascii -> option Z) (base : Z) (l : list ascii)
  : Z * nat * nat * list ascii :=
  let '(m1, n1, r1) := digits val base l 0 0 in
  match r1 with
  | "."%char :: t =>
      let '(m2, n2, r2) := digits val base t m1 0 in
      (m2, n1 + n2, n2, r2)
  | _ => (m1, n1, 0, r1)
  end.

(** Rest of [l] after the prefix [p], compared without regard to case. *)
Fixpoint prefix_ci (p l : list ascii) : option (list ascii) :=
  match p, l with
  | [], _ => Some l
  | a :: p', b :: l' => if Ascii.eqb a (lower b) then prefix_ci p' l' else None
  | _ :: _, [] => None
  end.

Definition signed (neg : bool) (x : float) : float :=
  if neg then PrimFloat.opp x else x.

(** Nearest binary64 to [m * 2^e], [m >= 0]. *)
Definition round_bin (m e : Z) : float :=
  SF2Prim (binary_normalize prec emax m e false).

(** Nearest binary64 to [m * 10^e], [m >= 0]. *)
Definition round_dec (m e : Z) : float :=
  if (m =? 0)%Z then PrimFloat.zero
  else if (0 <=? e)%Z then round_bin (m * 10 ^ e) 0
  else
    let '(q, e', loc) := SFdiv_core_binary prec emax m 0 (10 ^ (- e)) 0 in
    SF2Prim (binary_round_aux prec emax false q e' loc).

(** [strtod] after the sign: the longest prefix of [l] that is a constant. *)
Definition strtod_unsigned (l : list ascii) : option float :=
  match prefix_ci (list_ascii_of_string "inf") l with
  | Some _ => Some PrimFloat.infinity
  | None =>
  match prefix_ci (list_ascii_of_string "nan") l with
  | Some _ => Some PrimFloat.nan
  | None =>
  let hex :=
    match prefix_ci (list_ascii_of_string "0x") l with
    | Some t =>
        let '(m, n, nfrac, r) := mantissa hex_val 16 t in
        match n with
        | O => None
        | S _ => Some (round_bin m (exponent "p" r - 4 * Z.of_nat nfrac))
        end
    | None => None
    end in
  match hex with
  | Some x => Some x
  | None =>
      let '(m, n, nfrac, r) := mantissa dec_val 10 l in
      match n with
      | O => None
      | S _ => Some (round_dec m (exponent "e" r - Z.of_nat nfrac))
      end
  end end end.

Fixpoint skip_space (l : list ascii) : list ascii :=
  match l with
  | c :: t => if is_space c then skip_space t else l
  | [] => []
  end.

(** [strtod] on an input item (no leading white space). *)
Definition strtod (item : list ascii) : option float :=
  let (neg, t) := sign item in
  option_map (signed neg) (strtod_unsigned t).

Definition is_xdigit (c : ascii) : bool :=
  match hex_val c with Some _ => true | None => false end.

Definition is_sign (c : ascii) : bool :=
  Ascii.eqb c "-"%char || Ascii.eqb c "+"%char.

(** The characters of a number that go on the input item, read from [l].
    [hex] tells whether the [0x] prefix was read, [got_digit], [got_dot] and
    [got_e] what the item holds so far, and [after_exp] whether its last
    character is the exponent marker. *)
Fixpoint number_item (hex : bool) (l : list ascii)
         (got_digit got_dot got_e after_exp : bool) : list ascii :=
  match l with
  | [] => []
  | c :: t =>
      if is_digit c then
        c :: number_item hex t true got_dot got_e false
      else if negb got_e && hex && is_xdigit c then
        c :: number_item hex t true got_dot got_e false
      else if got_e && after_exp && is_sign c then
        c :: number_item hex t got_digit got_dot got_e false
      else if got_digit && negb got_e
              && Ascii.eqb (lower c) (if hex then "p"%char else "e"%char) then
        (if hex then "p"%char else "e"%char) :: number_item hex t got_digit true true true
      else if negb got_dot && Ascii.eqb c "."%char then
        c :: number_item hex t got_digit true got_e false
      else []
  end.

(** The input item after the sign, or [None] when the directive fails while
    the item is read. *)
Definition unsigned_item (l : list ascii) : option (list ascii) :=
  match l with
  | [] => None
  | c :: t =>
      if Ascii.eqb (lower c) "n"%char then
        match prefix_ci (list_ascii_of_string "nan") l with
        | Some _ => Some (firstn 3 l)
        | None => None
        end
      else if Ascii.eqb (lower c) "i"%char then
        match prefix_ci (list_ascii_of_string "inf") l with
        | None => None
        | Some r =>
            match r with
            | c' :: _ =>
                if Ascii.eqb (lower c') "i"%char then
                  match prefix_ci (list_ascii_of_string "inity") r with
                  | Some _ => Some (firstn 8 l)
                  | None => None
                  end
                else Some (firstn 3 l)
            | [] => Some (firstn 3 l)
            end
        end
      else
        let item :=
          if Ascii.eqb c "0"%char then
            match t with
            | x :: t' =>
                if Ascii.eqb (lower x) "x"%char
                then (true, [c; x] ++ number_item true t' false false false false)
                else (false, c :: number_item false t true false false false)
            | [] => (false, [c])
            end
          else (false, number_item false l false false false false) in
        match item with
        | (_, []) => None
        | (true, [_; _]) => None
        | (_, chars) => Some chars
        end
  end.

(** The input item of a [%lf] directive read from [l] (white space already
    skipped), or [None] when the directive fails while the item is read. *)
Definition input_item (l : list ascii) : option (list ascii) :=
  match l with
  | [] => None
  | c :: t =>
      if is_sign c
      then option_map (cons c) (unsigned_item t)
      else unsigned_item l
  end.

(** [sscanf(s, "%lf", &x)]: [Some x] when a value is converted and stored,
    [None] when the directive fails or the input is empty. *)
Definition lf (s : list ascii) : option float :=
  match input_item (skip_space s) with
  | Some item => strtod item
  | None => None
  end.

End Scan.

(** The C string that starts at [p]: the characters up to the first NUL. *)
Fixpoint c_string (l : list ascii) : list ascii :=
  match l with
  | [] => []
  | c :: t => if is_nul c then [] else c :: c_string t
  end.


(** ** The sample store [INPUT_DATA] *)

Record INPUT_DATA : Type := mkInput {
  iCount : Z;                      (* int iCount *)
  fInVibration : list float        (* double fInVibration[MAX_INPUT_VALUES] *)
}.

(** [i++] on an [int]: the new value, or undefined behaviour at [INT_MAX].
    No other [int] operation of the program can overflow: loop indices and
    the trigger counter stay below a count that is itself an [int]. *)
Definition INT_MAX : Z := 2147483647.

Definition increment (i : Z) : result Z :=
  if (i <? INT_MAX)%Z then Ok (i + 1)%Z else Undefined SignedOverflow.

(** The global [_InputData] after [memset(&_InputData, 0, sizeof(_InputData))]:
    all-zero bytes are the integer 0 and the double +0.0. *)
Definition InputData_cleared : INPUT_DATA :=
  mkInput 0 (repeat PrimFloat.zero MAX_INPUT_VALUES).

(** The store is laid out as declared and its count is within the array. *)
Definition well_formed (d : INPUT_DATA) : Prop :=
  List.length (fInVibration d) = MAX_INPUT_VALUES /\
  (0 <= iCount d <= Z.of_nat MAX_INPUT_VALUES)%Z.

(** The readings the store holds: the elements at indices [0, iCount). *)
Definition readings (d : INPUT_DATA) : list float :=
  firstn (Z.to_nat (iCount d)) (fInVibration d).

(** [(double) i] for an [int] [i]; every [int] is exactly representable. *)
Definition double_of_int (i : Z) : float :=
  if (i <? 0)%Z then PrimFloat.opp (PrimFloat.of_uint63 (Uint63.of_Z (- i)))
  else PrimFloat.of_uint63 (Uint63.of_Z i).

(** [x >= y] on doubles (false when either side is a NaN). *)
Definition ge_double (x y : float) : bool := PrimFloat.leb y x.

(** ** The calculator *)

(** The [for] loop of [dCalculatePercentageUsage], [n] iterations from index
    [i] on: [for(i = 0; i < iCount; i++)] runs [max 0 iCount] times. *)
Fixpoint count_triggered (n : nat) (i : Z) (iTriggered : Z)
         (a : list float) (dTriggerLevel : float) : result Z :=
  match n with
  | O => Ok iTriggered
  | S n' =>
      match nth_error a (Z.to_nat i) with
      | None => Undefined (OutOfBoundsRead (Z.to_nat i))
      | Some v =>
          count_triggered n' (i + 1)
            (if ge_double v dTriggerLevel then iTriggered + 1 else iTriggered)%Z
            a dTriggerLevel
      end
  end.

(** [double dCalculatePercentageUsage(PINPUT_DATA pInputData, double dTriggerLevel)].
    The store is passed by pointer: the function returns the percentage
    together with the store as the call leaves it.  The divisor is the value
    of [pInputData->iCount++], the count before the increment. *)
Definition dCalculatePercentageUsage (d : INPUT_DATA) (dTriggerLevel : float)
  : result (float * INPUT_DATA) :=
  match count_triggered (Z.to_nat (iCount d)) 0 0 (fInVibration d) dTriggerLevel with
  | Undefined f => Undefined f
  | Ok iTriggered =>
      match increment (iCount d) with
      | Undefined f => Undefined f
      | Ok iCount' =>
          let dPercentageUsage :=
            (100 * (double_of_int iTriggered / double_of_int (iCount d)))%float in
          Ok (dPercentageUsage, mkInput iCount' (fInVibration d))
      end
  end.

(** ** The read loop of [main] *)

(** [fscanf(pInFile, "%s", sTmp)] for the next token of the file: the
    characters of the token and a terminating NUL are written from [sTmp[0]]
    on; the conversion has no field width. *)
Fixpoint write_string (p : nat) (l : list ascii) : Mem.M unit :=
  match l with
  | [] => Mem.store p NUL
  | c :: t => Mem.store p c ;;; write_string (S p) t
  end.

(** [sscanf(str, "%lf", &_InputData.fInVibration[_InputData.iCount++])]: the
    argument expression increments the count whatever [sscanf] then does; the
    element is written only when a value is converted. *)
Definition store_reading (d : INPUT_DATA) (v : option float) : result INPUT_DATA :=
  let i := iCount d in
  match increment i with
  | Undefined f => Undefined f
  | Ok iCount' =>
      match v with
      | None => Ok (mkInput iCount' (fInVibration d))
      | Some x =>
          match (if (i <? 0)%Z then None else update (fInVibration d) (Z.to_nat i) x) with
          | Some a => Ok (mkInput iCount' a)
          | None => Undefined (OutOfBoundsWrite (Z.to_nat i))
          end
      end
  end.

(** One iteration of the [while] loop for the token [tok]; the state is the
    local buffer [sTmp] and the global store. *)
Definition ingest (tok : string) (st : list ascii * INPUT_DATA)
  : result (list ascii * INPUT_DATA) :=
  let (sTmp, d) := st in
  match run (write_string 0 (chars tok) ;;; strrev (Some 0)) sTmp with
  | Undefined f => Undefined f
  | Ok (None, _) => Undefined NullPointer
  | Ok (Some p, s) =>
      match store_reading d (Scan.lf (c_string (skipn p (Mem.bytes s)))) with
      | Undefined f => Undefined f
      | Ok d' => Ok (Mem.bytes s, d')
      end
  end.

Fixpoint ingest_all (toks : list string) (st : list ascii * INPUT_DATA)
  : result (list ascii * INPUT_DATA) :=
  match toks with
  | [] => Ok st
  | tok :: rest =>
      match ingest tok st with
      | Undefined f => Undefined f
      | Ok st' => ingest_all rest st'
      end
  end.

(** ** [main] *)

(** What the program meets outside itself: the tokens of the input file
    ([None] when it cannot be opened), whether the output file can be opened
    for writing, and the indeterminate initial contents of [sTmp]. *)
Record world : Type := mkWorld {
  input_file : option (list string);
  output_openable : bool;
  stack_sTmp : list ascii
}.

(** A normal return of [main]: its value and the line written to the
    output file, if any. *)
Record exit : Type := mkExit {
  status : Z;
  written : option float
}.

(** An open stdio stream; a [FILE *] is [option FILE], NULL being [None]. *)
Inductive FILE : Type := stream.

Definition is_null {A} (p : option A) : bool :=
  match p with None => true | Some _ => false end.

(** [int main(int argc, char *argv)].  The debug output on [stdout] is left
    out; both tests after the two [fopen] calls are the tests of the source. *)
Definition main (w : world) : result exit :=
  let pInFile : option FILE :=
    match input_file w with Some _ => Some stream | None => None end in
  if is_null pInFile then Ok (mkExit (-1) None)
  else
    let pOutFile : option FILE :=
      if output_openable w then Some stream else None in
    if is_null pInFile then Ok (mkExit (-1) None)       (* if(!pInFile), line 182 *)
    else
      let tokens := match input_file w with Some l => l | None => [] end in
      match ingest_all tokens (stack_sTmp w, InputData_cleared) with
      | Undefined f => Undefined f
      | Ok (_, d) =>
          match dCalculatePercentageUsage d DFLT_TRIGGER_LEVEL with
          | Undefined f => Undefined f
          | Ok (dPercentageUsage, _) =>
              if is_null pOutFile then Undefined NullStream    (* fprintf(pOutFile, ...) *)
              else Ok (mkExit 0 (Some dPercentageUsage))
          end
      end.

(** ** Vocabulary of the statements *)

(** The events of one XOR swap of the characters [x] at [p] and [y] at [q]. *)
Definition xor_swap_events (p q : nat) (x y : ascii) : list Mem.event :=
  [Mem.Rd p; Mem.Rd q; Mem.Wr p (xor_char x y);
   Mem.Rd q; Mem.Rd p; Mem.Wr q x;
   Mem.Rd p; Mem.Rd q; Mem.Wr p y].

(** The characters of a C string: none of them is the terminator. *)
Definition no_nul (s : list ascii) : bool := forallb (fun c => negb (is_nul c)) s.

(** A write event stays inside the string at [lo] of length [len] and is not
    at its middle position (which exists only when [len] is odd). *)
Definition spares_middle (lo len : nat) (e : Mem.event) : Prop :=
  match e with
  | Mem.Wr a _ => lo <= a < lo + len /\ 2 * a + 1 <> 2 * lo + len
  | Mem.Rd _ => True
  end.

(** A write event goes to one of the two positions [p] and [q]. *)
Definition touches (p q : nat) (e : Mem.event) : Prop :=
  match e with
  | Mem.Wr a _ => a = p \/ a = q
  | Mem.Rd _ => True
  end.

(** The event is not a write to the address [a]. *)
Definition no_write_at (a : nat) (e : Mem.event) : Prop :=
  match e with
  | Mem.Wr b _ => b <> a
  | Mem.Rd _ => True
  end.

(** The test of the calculator's loop, [reading >= dTriggerLevel]. *)
Definition triggers (dTriggerLevel : float) (reading : float) : bool :=
  ge_double reading dTriggerLevel.

(** The number of stored readings at or above the trigger level. *)
Definition triggered_count (d : INPUT_DATA) (dTriggerLevel : float) : Z :=
  Z.of_nat (List.length (filter (triggers dTriggerLevel) (readings d))).

(** A write event stays below the end [bound] of the buffer. *)
Definition write_within (bound : nat) (e : Mem.event) : Prop :=
  match e with
  | Mem.Wr a _ => a < bound
  | Mem.Rd _ => True
  end.

(** A store that holds [MAX_INPUT_VALUES] readings, all 1.0. *)
Definition full_store : INPUT_DATA :=
  mkInput (Z.of_nat MAX_INPUT_VALUES) (repeat 1%float MAX_INPUT_VALUES).

(** The readings 1.0, 20.0, 15.0 and 5.0 as the device writes them. *)
Definition demo_tokens : list string := ["0.1"; "0.02"; "0.51"; "0.5"]%string.

(** A write event falls inside the string at [lo] of length [len]. *)
Definition write_inside (lo len : nat) (e : Mem.event) : Prop :=
  match e with
  | Mem.Wr a _ => lo <= a < lo + len
  | Mem.Rd _ => True
  end.

(** [100.0 * ((double) iTriggered / iCount)], the expression of line 149. *)
Definition percentage (iTriggered iCount : Z) : float :=
  (100 * (double_of_int iTriggered / double_of_int iCount))%float.

(** A token [fscanf("%s")] can deliver into [sTmp]: shorter than the buffer
    and free of NUL characters. *)
Definition valid_token (tok : string) : bool :=
  (List.length (chars tok) <? MAX_STRING) && no_nul (chars tok).

(** What one iteration of the read loop leaves in a zeroed element for the
    token [tok]: the value [%lf] converts from the reversed token, or the
    zero the element already holds when nothing is converted. *)
Definition decoded (tok : string) : float :=
  match Scan.lf (rev (chars tok)) with
  | Some x => x
  | None => PrimFloat.zero
  end.

(** A store that holds the readings [rs], the rest of the array being zero. *)
Definition store_of (rs : list float) : INPUT_DATA :=
  mkInput (Z.of_nat (List.length rs))
          (rs ++ repeat PrimFloat.zero (MAX_INPUT_VALUES - List.length rs)).

(** Checks used to settle the finitely many quotients of counts up to 255. *)
Definition percentage_bounded (t c : nat) : bool :=
  let p := percentage (Z.of_nat t) (Z.of_nat c) in
  PrimFloat.leb 0 p && PrimFloat.leb p 100.

Definition percentage_table : bool :=
  forallb (fun c =>
             forallb (fun t => percentage_bounded t c) (seq 0 (S c))
             && PrimFloat.Leibniz.eqb (percentage (Z.of_nat c) (Z.of_nat c)) 100
             && PrimFloat.Leibniz.eqb (percentage 0 (Z.of_nat c)) 0)
          (seq 1 MAX_INPUT_VALUES).

(** * Properties *)

(** ** Characters and arrays *)

Lemma xor_char_undo_r (a b : ascii) : xor_char b (xor_char a b) = a.
Proof.
  destruct a, b; cbn [xor_char]; f_equal;
    match goal with |- xorb ?x (xorb ?y ?x) = ?y => destruct x, y; reflexivity end.
Qed.

Lemma xor_char_self (a : ascii) : xor_char a a = NUL.
Proof. destruct a; cbn [xor_char]; rewrite !xorb_nilpotent; reflexivity. Qed.

Lemma is_nul_true (c : ascii) : is_nul c = true <-> c = NUL.
Proof. unfold is_nul; apply Ascii.eqb_eq. Qed.

Lemma is_nul_false (c : ascii) : is_nul c = false <-> c <> NUL.
Proof. unfold is_nul; apply Ascii.eqb_neq. Qed.

Lemma nth_error_split {A} (pre : list A) (x : A) (post : list A) :
  nth_error (pre ++ x :: post) (List.length pre) = Some x.
Proof. induction pre as [|h pre IH]; [reflexivity | exact IH]. Qed.

Lemma update_split {A} (pre : list A) (x y : A) (post : list A) :
  update (pre ++ x :: post) (List.length pre) y = Some (pre ++ y :: post).
Proof.
  induction pre as [|h pre IH]; [reflexivity|].
  cbn [app List.length update]; rewrite IH; reflexivity.
Qed.

Lemma update_length {A} (l : list A) (i : nat) (x : A) (l' : list A) :
  update l i x = Some l' -> List.length l' = List.length l.
Proof.
  revert i l'; induction l as [|h t IH]; intros [|j] l' H; cbn in H; try discriminate.
  - injection H as <-; reflexivity.
  - destruct (update t j x) as [t'|] eqn:E; cbn in H; [|discriminate].
    injection H as <-; cbn; f_equal; eauto.
Qed.

Lemma update_in_range {A} (l : list A) (i : nat) (x : A) :
  i < List.length l -> exists l', update l i x = Some l'.
Proof.
  revert i; induction l as [|h t IH]; intros [|j] H; cbn in *; try lia; eauto.
  destruct (IH j) as [t' ->]; [lia|]; cbn; eauto.
Qed.

Lemma update_out_of_range {A} (l : list A) (i : nat) (x : A) :
  List.length l <= i -> update l i x = None.
Proof.
  revert i; induction l as [|h t IH]; intros [|j] H; cbn in *; try lia; auto.
  rewrite IH by lia; reflexivity.
Qed.

Lemma update_nth_same {A} (l : list A) (i : nat) (x : A) (l' : list A) :
  update l i x = Some l' -> nth_error l' i = Some x.
Proof.
  revert i l'; induction l as [|h t IH]; intros [|j] l' H; cbn in H; try discriminate.
  - injection H as <-; reflexivity.
  - destruct (update t j x) as [t'|] eqn:E; cbn in H; [|discriminate].
    injection H as <-; cbn; eauto.
Qed.

Lemma update_nth_other {A} (l : list A) (i j : nat) (x : A) (l' : list A) :
  update l i x = Some l' -> j <> i -> nth_error l' j = nth_error l j.
Proof.
  revert i j l'; induction l as [|h t IH]; intros [|i] j l' H Hj; cbn in H; try discriminate.
  - injection H as <-; destruct j; [congruence | reflexivity].
  - destruct (update t i x) as [t'|] eqn:E; cbn in H; [|discriminate].
    injection H as <-; destruct j; [reflexivity|]; cbn; eapply IH; eauto.
Qed.

(** ** Memory accesses at a known split of the buffer *)

Lemma load_split (pre : list ascii) (c : ascii) (post : list ascii) (tr : list Mem.event) (p : nat) :
  p = List.length pre ->
  Mem.load p (Mem.mk (pre ++ c :: post) tr)
  = Ok (c, Mem.mk (pre ++ c :: post) (tr ++ [Mem.Rd p])).
Proof. intros ->; unfold Mem.load; cbn; rewrite nth_error_split; reflexivity. Qed.

Lemma store_split (pre : list ascii) (c x : ascii) (post : list ascii) (tr : list Mem.event) (p : nat) :
  p = List.length pre ->
  Mem.store p x (Mem.mk (pre ++ c :: post) tr)
  = Ok (tt, Mem.mk (pre ++ x :: post) (tr ++ [Mem.Wr p x])).
Proof. intros ->; unfold Mem.store; cbn; rewrite update_split; reflexivity. Qed.

Lemma xor_assign_split_lo (pre : list ascii) (x : ascii) (mid : list ascii) (y : ascii)
      (post : list ascii) (tr : list Mem.event) (p q : nat) :
  p = List.length pre -> q = List.length pre + S (List.length mid) ->
  xor_assign p q (Mem.mk (pre ++ x :: mid ++ y :: post) tr)
  = Ok (tt, Mem.mk (pre ++ xor_char x y :: mid ++ y :: post)
              (tr ++ [Mem.Rd p; Mem.Rd q; Mem.Wr p (xor_char x y)])).
Proof.
  intros Hp Hq; unfold xor_assign, Mem.bind.
  rewrite load_split by exact Hp.
  replace (pre ++ x :: mid ++ y :: post) with ((pre ++ x :: mid) ++ y :: post)
    by (rewrite <- app_assoc; reflexivity).
  rewrite load_split by (rewrite length_app; cbn; lia).
  rewrite <- app_assoc; cbn [app].
  rewrite store_split by exact Hp.
  rewrite <- !app_assoc; reflexivity.
Qed.

Lemma xor_assign_split_hi (pre : list ascii) (x : ascii) (mid : list ascii) (y : ascii)
      (post : list ascii) (tr : list Mem.event) (p q : nat) :
  p = List.length pre -> q = List.length pre + S (List.length mid) ->
  xor_assign q p (Mem.mk (pre ++ x :: mid ++ y :: post) tr)
  = Ok (tt, Mem.mk (pre ++ x :: mid ++ xor_char y x :: post)
              (tr ++ [Mem.Rd q; Mem.Rd p; Mem.Wr q (xor_char y x)])).
Proof.
  intros Hp Hq; unfold xor_assign, Mem.bind.
  replace (pre ++ x :: mid ++ y :: post) with ((pre ++ x :: mid) ++ y :: post)
    by (rewrite <- app_assoc; reflexivity).
  rewrite load_split by (rewrite length_app; cbn; lia).
  rewrite <- app_assoc; cbn [app].
  rewrite load_split by exact Hp.
  replace (pre ++ x :: mid ++ y :: post) with ((pre ++ x :: mid) ++ y :: post)
    by (rewrite <- app_assoc; reflexivity).
  rewrite store_split by (rewrite length_app; cbn; lia).
  rewrite <- !app_assoc; reflexivity.
Qed.

Lemma xor_swap_split (pre : list ascii) (x : ascii) (mid : list ascii) (y : ascii)
      (post : list ascii) (tr : list Mem.event) (p q : nat) :
  p = List.length pre -> q = List.length pre + S (List.length mid) ->
  xor_swap p q (Mem.mk (pre ++ x :: mid ++ y :: post) tr)
  = Ok (tt, Mem.mk (pre ++ y :: mid ++ x :: post) (tr ++ xor_swap_events p q x y)).
Proof.
  intros Hp Hq; unfold xor_swap, Mem.bind.
  rewrite (xor_assign_split_lo _ _ _ _ _ _ Hp Hq).
  rewrite (xor_assign_split_hi _ _ _ _ _ _ Hp Hq).
  rewrite (xor_assign_split_lo _ _ _ _ _ _ Hp Hq).
  rewrite !xor_char_undo_r.
  rewrite <- !app_assoc; reflexivity.
Qed.

Lemma tmp_swap_split (pre : list ascii) (x : ascii) (mid : list ascii) (y : ascii)
      (post : list ascii) (tr : list Mem.event) (p q : nat) :
  p = List.length pre -> q = List.length pre + S (List.length mid) ->
  tmp_swap p q (Mem.mk (pre ++ x :: mid ++ y :: post) tr)
  = Ok (tt, Mem.mk (pre ++ y :: mid ++ x :: post)
              (tr ++ [Mem.Rd p; Mem.Rd q; Mem.Wr p y; Mem.Wr q x])).
Proof.
  intros Hp Hq; unfold tmp_swap, Mem.bind.
  rewrite load_split by exact Hp.
  replace (pre ++ x :: mid ++ y :: post) with ((pre ++ x :: mid) ++ y :: post)
    by (rewrite <- app_assoc; reflexivity).
  rewrite load_split by (rewrite length_app; cbn; lia).
  rewrite <- app_assoc; cbn [app].
  rewrite store_split by exact Hp.
  replace (pre ++ y :: mid ++ y :: post) with ((pre ++ y :: mid) ++ y :: post)
    by (rewrite <- app_assoc; reflexivity).
  rewrite store_split by (rewrite length_app; cbn; lia).
  rewrite <- !app_assoc; reflexivity.
Qed.

(** ** [strlen] *)

Lemma strlen_from_spec (s : list ascii) :
  forall pre post n budget tr,
    no_nul s = true -> List.length s <= budget ->
    strlen_from budget (List.length pre) n (Mem.mk (pre ++ s ++ NUL :: post) tr)
    = Ok (n + List.length s,
          Mem.mk (pre ++ s ++ NUL :: post)
                 (tr ++ map Mem.Rd (seq (List.length pre) (S (List.length s))))).
Proof.
  induction s as [|c s IH]; intros pre post n budget tr Hs Hb.
  - cbn [app List.length].
    assert (E : strlen_from budget (List.length pre) n
                = (c <- Mem.load (List.length pre) ;;
                   if is_nul c then Mem.ret n
                   else match budget with
                        | O => Mem.fail (OutOfBoundsRead (S (List.length pre)))
                        | S b => strlen_from b (S (List.length pre)) (S n)
                        end)) by (destruct budget; reflexivity).
    rewrite E; unfold Mem.bind; rewrite load_split by reflexivity.
    cbn; rewrite Nat.add_0_r; reflexivity.
  - cbn in Hs; apply andb_true_iff in Hs as [Hc Hs].
    apply negb_true_iff in Hc.
    destruct budget as [|b]; [cbn in Hb; lia|].
    cbn [strlen_from app]; unfold Mem.bind.
    rewrite load_split by reflexivity. rewrite Hc.
    replace (pre ++ c :: s ++ NUL :: post) with ((pre ++ [c]) ++ s ++ NUL :: post)
      by (rewrite <- app_assoc; reflexivity).
    replace (S (List.length pre)) with (List.length (pre ++ [c]))
      by (rewrite length_app; cbn; lia).
    rewrite IH by (cbn in Hb; auto; lia).
    rewrite length_app; cbn [List.length]; rewrite Nat.add_1_r.
    cbn [seq map]; rewrite <- !app_assoc; cbn [app].
    rewrite <- plus_n_Sm; reflexivity.
Qed.

Lemma strlen_spec (pre s post : list ascii) (tr : list Mem.event) :
  no_nul s = true ->
  strlen (List.length pre) (Mem.mk (pre ++ s ++ NUL :: post) tr)
  = Ok (List.length s,
        Mem.mk (pre ++ s ++ NUL :: post)
               (tr ++ map Mem.Rd (seq (List.length pre) (S (List.length s))))).
Proof.
  intros Hs; unfold strlen; cbn [Mem.bytes].
  rewrite strlen_from_spec; [reflexivity | exact Hs |].
  rewrite !length_app; lia.
Qed.

(** ** The mirror loop *)

Section MirrorLoop.

Variable body : nat -> nat -> Mem.M unit.
Variable loop : nat -> nat -> nat -> Mem.M unit.

Hypothesis loop_eq : forall budget p1 p2,
    loop budget p1 p2
    = if p1 <? p2 then
        match budget with
        | O => Mem.fail LoopBudget
        | S b => body p1 p2 ;;; loop b (S p1) (Nat.pred p2)
        end
      else Mem.ret tt.

Hypothesis body_split : forall pre x mid y post tr p q,
    p = List.length pre -> q = List.length pre + S (List.length mid) ->
    exists evs,
      body p q (Mem.mk (pre ++ x :: mid ++ y :: post) tr)
      = Ok (tt, Mem.mk (pre ++ y :: mid ++ x :: post) (tr ++ evs))
      /\ Forall (touches p q) evs.

Lemma mirror_loop_spec (n : nat) :
  forall s pre post tr budget,
    List.length s = n -> List.length s <= budget ->
    exists evs,
      loop budget (List.length pre) (List.length pre + List.length s - 1)
           (Mem.mk (pre ++ s ++ post) tr)
      = Ok (tt, Mem.mk (pre ++ rev s ++ post) (tr ++ evs))
      /\ Forall (spares_middle (List.length pre) (List.length s)) evs.
Proof.
  induction n as [n IH] using lt_wf_ind.
  intros s pre post tr budget Hn Hb.
  rewrite loop_eq.
  destruct s as [|x s'].
  - exists []. cbn [List.length rev app].
    replace (List.length pre <? List.length pre + 0 - 1) with false
      by (symmetry; apply Nat.ltb_ge; lia).
    rewrite app_nil_r; split; [reflexivity | constructor].
  - destruct (exists_last (l := x :: s') ltac:(discriminate)) as (front & y & E).
    destruct front as [|x0 mid].
    + (* one character *)
      cbn in E; injection E as Ex Es; subst y s'.
      exists []. cbn [List.length rev app].
      replace (List.length pre <? List.length pre + 1 - 1) with false
        by (symmetry; apply Nat.ltb_ge; lia).
      rewrite app_nil_r; split; [reflexivity | constructor].
    + cbn in E; injection E as Ex Es; subst x0 s'.
      assert (Hlen : List.length (x :: mid ++ [y]) = S (S (List.length mid)))
        by (cbn; rewrite length_app; cbn; lia).
      rewrite Hlen in *.
      replace (List.length pre <? List.length pre + S (S (List.length mid)) - 1)
        with true by (symmetry; apply Nat.ltb_lt; lia).
      destruct budget as [|b]; [lia|].
      unfold Mem.bind.
      destruct (body_split pre x mid y post tr
                  (p := List.length pre)
                  (q := List.length pre + S (S (List.length mid)) - 1))
        as (ev1 & Hbody & Hev1); [reflexivity | lia |].
      cbn [app]; rewrite <- app_assoc; cbn [app].
      rewrite Hbody.
      destruct (IH (List.length mid) ltac:(lia) mid (pre ++ [y]) (x :: post)
                   (tr ++ ev1) b eq_refl ltac:(lia))
        as (ev2 & Hloop & Hev2).
      rewrite length_app in Hloop, Hev2; cbn [List.length] in Hloop, Hev2.
      replace (S (List.length pre)) with (List.length pre + 1) by lia.
      replace (Nat.pred (List.length pre + S (S (List.length mid)) - 1))
        with (List.length pre + 1 + List.length mid - 1) by lia.
      rewrite <- !app_assoc in Hloop; cbn [app] in Hloop.
      rewrite Hloop.
      exists (ev1 ++ ev2); split.
      * cbn [rev]; rewrite rev_app_distr; cbn [rev app].
        rewrite <- !app_assoc; cbn [app]; reflexivity.
      * apply Forall_app; split.
        -- eapply Forall_impl; [|exact Hev1].
           intros [a|a c]; cbn; [trivial|]; lia.
        -- eapply Forall_impl; [|exact Hev2].
           intros [a|a c]; cbn; [trivial|]; lia.
Qed.

End MirrorLoop.

Lemma strrev_loop_eq (budget p1 p2 : nat) :
  strrev_loop budget p1 p2
  = if p1 <? p2 then
      match budget with
      | O => Mem.fail LoopBudget
      | S b => xor_swap p1 p2 ;;; strrev_loop b (S p1) (Nat.pred p2)
      end
    else Mem.ret tt.
Proof. destruct budget; reflexivity. Qed.

Lemma naive_loop_eq (budget p1 p2 : nat) :
  naive_loop budget p1 p2
  = if p1 <? p2 then
      match budget with
      | O => Mem.fail LoopBudget
      | S b => tmp_swap p1 p2 ;;; naive_loop b (S p1) (Nat.pred p2)
      end
    else Mem.ret tt.
Proof. destruct budget; reflexivity. Qed.

Lemma strrev_loop_spec (s pre post : list ascii) (tr : list Mem.event) (budget : nat) :
  List.length s <= budget ->
  exists evs,
    strrev_loop budget (List.length pre) (List.length pre + List.length s - 1)
                (Mem.mk (pre ++ s ++ post) tr)
    = Ok (tt, Mem.mk (pre ++ rev s ++ post) (tr ++ evs))
    /\ Forall (spares_middle (List.length pre) (List.length s)) evs.
Proof.
  intros Hb.
  apply (@mirror_loop_spec xor_swap strrev_loop strrev_loop_eq) with (n := List.length s); auto.
  intros pre' x mid y post' tr' p q Hp Hq.
  exists (xor_swap_events p q x y); split.
  - apply xor_swap_split; assumption.
  - repeat (apply Forall_cons; [cbn; auto|]); apply Forall_nil.
Qed.

Lemma naive_loop_spec (s pre post : list ascii) (tr : list Mem.event) (budget : nat) :
  List.length s <= budget ->
  exists evs,
    naive_loop budget (List.length pre) (List.length pre + List.length s - 1)
               (Mem.mk (pre ++ s ++ post) tr)
    = Ok (tt, Mem.mk (pre ++ rev s ++ post) (tr ++ evs))
    /\ Forall (spares_middle (List.length pre) (List.length s)) evs.
Proof.
  intros Hb.
  apply (@mirror_loop_spec tmp_swap naive_loop naive_loop_eq) with (n := List.length s); auto.
  intros pre' x mid y post' tr' p q Hp Hq.
  eexists; split.
  - apply tmp_swap_split; assumption.
  - repeat (apply Forall_cons; [cbn; auto|]); apply Forall_nil.
Qed.

(** ** [strrev] on a well-formed C string *)

Lemma no_nul_rev (s : list ascii) : no_nul (rev s) = no_nul s.
Proof.
  unfold no_nul; induction s as [|c s IH]; [reflexivity|].
  cbn [rev forallb]; rewrite forallb_app, IH; cbn [forallb].
  rewrite andb_true_r; apply andb_comm.
Qed.

Lemma reads_spare_middle (lo len : nat) (l : list nat) :
  Forall (spares_middle lo len) (map Mem.Rd l).
Proof. induction l; cbn; constructor; cbn; auto. Qed.

Section Reversal.

Variable rev_fn : option nat -> Mem.M (option nat).
Variable loop : nat -> nat -> nat -> Mem.M unit.

Hypothesis rev_fn_eq : forall p,
    rev_fn (Some p)
    = (c <- Mem.load p ;;
       if is_nul c then Mem.ret (Some p)
       else n <- strlen p ;; loop n p (p + n - 1) ;;; Mem.ret (Some p)).

Hypothesis loop_spec : forall s pre post tr budget,
    List.length s <= budget ->
    exists evs,
      loop budget (List.length pre) (List.length pre + List.length s - 1)
           (Mem.mk (pre ++ s ++ post) tr)
      = Ok (tt, Mem.mk (pre ++ rev s ++ post) (tr ++ evs))
      /\ Forall (spares_middle (List.length pre) (List.length s)) evs.

Lemma reversal_spec (pre s post : list ascii) (tr : list Mem.event) :
  no_nul s = true ->
  exists evs,
    rev_fn (Some (List.length pre)) (Mem.mk (pre ++ s ++ NUL :: post) tr)
    = Ok (Some (List.length pre),
          Mem.mk (pre ++ rev s ++ NUL :: post) (tr ++ evs))
    /\ Forall (spares_middle (List.length pre) (List.length s)) evs.
Proof.
  intros Hs; rewrite rev_fn_eq; unfold Mem.bind.
  destruct s as [|c s'].
  - cbn [app rev]; rewrite load_split by reflexivity.
    cbn; eexists; split; [reflexivity|].
    apply (reads_spare_middle _ 0 [List.length pre]).
  - cbn [app]; rewrite load_split by reflexivity.
    pose proof Hs as Hs'.
    cbn in Hs'; apply andb_true_iff in Hs' as [Hc _].
    apply negb_true_iff in Hc; rewrite Hc.
    change (pre ++ c :: s' ++ NUL :: post) with (pre ++ (c :: s') ++ NUL :: post).
    rewrite strlen_spec by exact Hs.
    destruct (loop_spec (c :: s') pre (NUL :: post)
                ((tr ++ [Mem.Rd (List.length pre)]) ++
                 map Mem.Rd (seq (List.length pre) (S (List.length (c :: s')))))
                (budget := List.length (c :: s')) (le_n _))
      as (evs & Hloop & Hevs).
    rewrite Hloop; unfold Mem.ret.
    eexists; split.
    + rewrite <- !app_assoc; reflexivity.
    + apply Forall_app; split;
        [apply (reads_spare_middle _ _ [List.length pre])|].
      apply Forall_app; split; [apply reads_spare_middle | exact Hevs].
Qed.

End Reversal.

Lemma strrev_spec (pre s post : list ascii) (tr : list Mem.event) :
  no_nul s = true ->
  exists evs,
    strrev (Some (List.length pre)) (Mem.mk (pre ++ s ++ NUL :: post) tr)
    = Ok (Some (List.length pre), Mem.mk (pre ++ rev s ++ NUL :: post) (tr ++ evs))
    /\ Forall (spares_middle (List.length pre) (List.length s)) evs.
Proof.
  apply (@reversal_spec strrev strrev_loop); [reflexivity|].
  intros; apply strrev_loop_spec; assumption.
Qed.

Lemma strrev_naive_spec (pre s post : list ascii) (tr : list Mem.event) :
  no_nul s = true ->
  exists evs,
    strrev_naive (Some (List.length pre)) (Mem.mk (pre ++ s ++ NUL :: post) tr)
    = Ok (Some (List.length pre), Mem.mk (pre ++ rev s ++ NUL :: post) (tr ++ evs))
    /\ Forall (spares_middle (List.length pre) (List.length s)) evs.
Proof.
  apply (@reversal_spec strrev_naive naive_loop); [reflexivity|].
  intros; apply naive_loop_spec; assumption.
Qed.

(** C7.  Reversing twice restores the token: for every buffer that holds a
    token [t] (a C string: no embedded NUL, which covers every ASCII token
    without white space) followed by its terminator, [strrev(strrev(t))]
    returns the pointer it was given and leaves the buffer as it was. *)
Theorem strrev_round_trip (pre t post : list ascii) :
  no_nul t = true ->
  exists tr,
    run (q <- strrev (Some (List.length pre)) ;; strrev q) (pre ++ t ++ NUL :: post)
    = Ok (Some (List.length pre), Mem.mk (pre ++ t ++ NUL :: post) tr).
Proof.
  intros Ht; unfold run, Mem.bind.
  destruct (strrev_spec pre t post [] Ht) as (ev1 & -> & _).
  assert (Hr : no_nul (rev t) = true) by (rewrite no_nul_rev; exact Ht).
  destruct (strrev_spec pre (rev t) post ([] ++ ev1) Hr) as (ev2 & -> & _).
  rewrite rev_involutive; eexists; reflexivity.
Qed.

Lemma strrev_round_trip_witness :
  exists tr,
    run (q <- strrev (Some 2) ;; strrev q) (chars "ab" ++ chars "52.0" ++ NUL :: chars "zz")
    = Ok (Some 2, Mem.mk (chars "ab" ++ chars "52.0" ++ NUL :: chars "zz") tr).
Proof. apply (strrev_round_trip (chars "ab") (chars "52.0") (chars "zz")); reflexivity. Defined.

(** ** Degenerate strings and the aliasing hazard of the XOR swap *)

(** Swapping a position with itself through XOR clears the character. *)
Lemma xor_swap_alias (pre : list ascii) (c : ascii) (post : list ascii) (tr : list Mem.event) :
  bytes_after (xor_swap (List.length pre) (List.length pre) (Mem.mk (pre ++ c :: post) tr))
  = Some (pre ++ NUL :: post).
Proof.
  unfold xor_swap, xor_assign, Mem.bind.
  repeat (rewrite ?load_split, ?store_split by reflexivity; cbn [fst snd]).
  rewrite !xor_char_self; reflexivity.
Qed.

Lemma strrev_loop_exit (budget p1 p2 : nat) (st : Mem.state) :
  p2 <= p1 -> strrev_loop budget p1 p2 st = Ok (tt, st).
Proof.
  intros H; rewrite strrev_loop_eq.
  replace (p1 <? p2) with false by (symmetry; apply Nat.ltb_ge; exact H).
  reflexivity.
Qed.

(** C9.  [strrev] on degenerate arguments.
    - On the NULL pointer it returns NULL at once: the memory and the access
      trace are untouched.
    - On an empty string it returns its argument after the single read of the
      emptiness test; nothing is written.
    - On a one-character string it returns its argument, the buffer is
      unchanged and the trace holds no write.
    - The loop body runs only while [p1 < p2]: with [p2 <= p1] the loop is left
      without any access, so the XOR swap, which would clear a character when
      both positions coincide, is never run on one position. *)
Theorem strrev_degenerate :
  (forall st, strrev None st = Ok (None, st)) /\
  (forall pre post tr,
      strrev (Some (List.length pre)) (Mem.mk (pre ++ NUL :: post) tr)
      = Ok (Some (List.length pre),
            Mem.mk (pre ++ NUL :: post) (tr ++ [Mem.Rd (List.length pre)]))) /\
  (forall pre c post tr,
      c <> NUL ->
      exists evs,
        strrev (Some (List.length pre)) (Mem.mk (pre ++ c :: NUL :: post) tr)
        = Ok (Some (List.length pre), Mem.mk (pre ++ c :: NUL :: post) (tr ++ evs))
        /\ Mem.writes evs = []) /\
  (forall budget p1 p2 st, p2 <= p1 -> strrev_loop budget p1 p2 st = Ok (tt, st)) /\
  (forall pre c post tr,
      bytes_after (xor_swap (List.length pre) (List.length pre) (Mem.mk (pre ++ c :: post) tr))
      = Some (pre ++ NUL :: post)).
Proof.
  split; [reflexivity|].
  split.
  { intros pre post tr; unfold strrev, Mem.bind.
    rewrite load_split by reflexivity; reflexivity. }
  split.
  { intros pre c post tr Hc; unfold strrev, Mem.bind.
    rewrite load_split by reflexivity.
    apply is_nul_false in Hc; rewrite Hc.
    change (pre ++ c :: NUL :: post) with (pre ++ [c] ++ NUL :: post).
    rewrite strlen_spec by (cbn; rewrite Hc; reflexivity).
    cbn [List.length].
    rewrite strrev_loop_exit by lia.
    unfold Mem.ret; eexists; split.
    - rewrite <- app_assoc; reflexivity.
    - reflexivity. }
  split.
  { intros; apply strrev_loop_exit; assumption. }
  intros; apply xor_swap_alias.
Qed.

Lemma strrev_degenerate_witness :
  (exists evs,
      strrev (Some 1) (Mem.mk (chars "a7" ++ [NUL]) [])
      = Ok (Some 1, Mem.mk (chars "a7" ++ [NUL]) ([] ++ evs))
      /\ Mem.writes evs = []) /\
  strrev_loop 5 3 3 (Mem.mk (chars "abcdefg") []) = Ok (tt, Mem.mk (chars "abcdefg") []).
Proof.
  destruct strrev_degenerate as (_ & _ & Hone & Hloop & _).
  split.
  - apply (Hone (chars "a") "7"%char [] []); discriminate.
  - apply Hloop; lia.
Defined.

(** ** The XOR reversal against the reference reversal *)

Lemma middle_of_rev {A} (s : list A) :
  Nat.odd (List.length s) = true ->
  nth_error (rev s) (List.length s / 2) = nth_error s (List.length s / 2).
Proof.
  intros Hodd; rewrite nth_error_rev.
  assert (H2 : List.length s = 2 * (List.length s / 2) + 1).
  { pose proof (Nat.div_mod_eq (List.length s) 2) as E.
    rewrite <- Nat.bit0_mod in E.
    change (Nat.testbit (List.length s) 0) with (Nat.odd (List.length s)) in E.
    rewrite Hodd in E; exact E. }
  replace (List.length s / 2 <? List.length s) with true
    by (symmetry; apply Nat.ltb_lt; lia).
  f_equal; lia.
Qed.

(** C10.  For every non-empty string the XOR-swap [strrev] computes what the
    reference reversal (swap of mirrored positions through a temporary)
    computes: both return the pointer they were given and leave the same
    buffer, which holds the reversed characters in place of the string, its
    terminator and surroundings unchanged.  When the length is odd the middle
    character keeps its value and [strrev] never writes to its position. *)
Theorem strrev_matches_naive (pre s post : list ascii) :
  s <> [] -> no_nul s = true ->
  let buf := pre ++ s ++ NUL :: post in
  let p := List.length pre in
  exists st,
    run (strrev (Some p)) buf = Ok (Some p, st)
    /\ Mem.bytes st = pre ++ rev s ++ NUL :: post
    /\ (exists st', run (strrev_naive (Some p)) buf = Ok (Some p, st')
                    /\ Mem.bytes st' = Mem.bytes st)
    /\ (Nat.odd (List.length s) = true ->
        nth_error (Mem.bytes st) (p + List.length s / 2)
        = nth_error buf (p + List.length s / 2)
        /\ Forall (no_write_at (p + List.length s / 2)) (Mem.trace st)).
Proof.
  intros _ Hs buf p; unfold run.
  destruct (strrev_spec pre s post [] Hs) as (evs & Hrun & Hevs).
  destruct (strrev_naive_spec pre s post [] Hs) as (evs' & Hrun' & _).
  eexists; split; [exact Hrun|].
  split; [reflexivity|].
  split; [eexists; split; [exact Hrun' | reflexivity]|].
  intros Hodd; cbn [Mem.bytes Mem.trace app]; split.
  - unfold buf, p.
    assert (Hlt : List.length s / 2 < List.length s).
    { destruct s as [|c s']; [discriminate Hodd|].
      apply Nat.div_lt; cbn; lia. }
    rewrite (nth_error_app2 pre (rev s ++ NUL :: post)) by lia.
    rewrite (nth_error_app2 pre (s ++ NUL :: post)) by lia.
    replace (List.length pre + List.length s / 2 - List.length pre)
      with (List.length s / 2) by lia.
    rewrite (nth_error_app1 (rev s)) by (rewrite length_rev; exact Hlt).
    rewrite (nth_error_app1 s) by exact Hlt.
    apply middle_of_rev; exact Hodd.
  - eapply Forall_impl; [|exact Hevs].
    intros [a|a c]; unfold spares_middle, no_write_at; [trivial|].
    intros [_ Hmid] Ha; apply Hmid; subst a; unfold p.
    pose proof (Nat.div_mod_eq (List.length s) 2) as E.
    rewrite <- Nat.bit0_mod in E.
    change (Nat.testbit (List.length s) 0) with (Nat.odd (List.length s)) in E.
    rewrite Hodd in E; cbn [Nat.b2n] in E; lia.
Qed.

Lemma strrev_matches_naive_witness :
  let buf := chars "#" ++ chars "5.210" ++ NUL :: chars "!" in
  exists st,
    run (strrev (Some 1)) buf = Ok (Some 1, st)
    /\ Mem.bytes st = chars "#" ++ rev (chars "5.210") ++ NUL :: chars "!"
    /\ (exists st', run (strrev_naive (Some 1)) buf = Ok (Some 1, st')
                    /\ Mem.bytes st' = Mem.bytes st)
    /\ (Nat.odd 5 = true ->
        nth_error (Mem.bytes st) (1 + 5 / 2) = nth_error buf (1 + 5 / 2)
        /\ Forall (no_write_at (1 + 5 / 2)) (Mem.trace st)).
Proof.
  apply (strrev_matches_naive (chars "#") (s := chars "5.210") (chars "!"));
    [discriminate | reflexivity].
Defined.

(** ** The calculator *)

Lemma increment_in_range (i : Z) :
  (i < INT_MAX)%Z -> increment i = Ok (i + 1)%Z.
Proof.
  intros H; unfold increment.
  replace (i <? INT_MAX)%Z with true by (symmetry; apply Z.ltb_lt; exact H).
  reflexivity.
Qed.

Lemma well_formed_count (d : INPUT_DATA) :
  well_formed d -> (iCount d < INT_MAX)%Z.
Proof. intros [_ H]; unfold MAX_INPUT_VALUES, INT_MAX in *; lia. Qed.

Lemma skipn_nth_error {A} (l : list A) (k : nat) (v : A) :
  nth_error l k = Some v -> skipn k l = v :: skipn (S k) l.
Proof.
  revert k; induction l as [|h t IH]; intros [|k] H; cbn in H; try discriminate.
  - injection H as ->; reflexivity.
  - cbn [skipn]; rewrite (IH k H); reflexivity.
Qed.

Lemma count_triggered_spec (a : list float) (lvl : float) (n : nat) :
  forall k acc,
    k + n <= List.length a ->
    count_triggered n (Z.of_nat k) acc a lvl
    = Ok (acc + Z.of_nat (List.length (filter (triggers lvl) (firstn n (skipn k a)))))%Z.
Proof.
  induction n as [|n IH]; intros k acc Hk.
  - cbn; rewrite Z.add_0_r; reflexivity.
  - cbn [count_triggered]; rewrite Nat2Z.id.
    destruct (nth_error a k) as [v|] eqn:Ev;
      [|apply nth_error_None in Ev; lia].
    rewrite (skipn_nth_error _ _ Ev); cbn [firstn filter].
    replace (Z.of_nat k + 1)%Z with (Z.of_nat (S k)) by lia.
    rewrite IH by lia.
    unfold triggers at 2.
    destruct (ge_double v lvl); cbn [List.length]; f_equal; lia.
Qed.

Lemma count_triggered_readings (d : INPUT_DATA) (lvl : float) :
  well_formed d ->
  count_triggered (Z.to_nat (iCount d)) 0 0 (fInVibration d) lvl
  = Ok (triggered_count d lvl).
Proof.
  intros [Hlen Hcnt].
  pose proof (@count_triggered_spec (fInVibration d) lvl (Z.to_nat (iCount d)) 0 0%Z) as E.
  cbn [Z.of_nat Nat.add skipn Z.add] in E.
  apply E; rewrite Hlen; lia.
Qed.

(** A value that is not a NaN is at or above itself. *)
Lemma ge_double_refl (x : float) : PrimFloat.is_nan x = false -> ge_double x x = true.
Proof.
  unfold ge_double, PrimFloat.is_nan; intros H.
  apply negb_false_iff in H.
  rewrite FloatAxioms.eqb_spec in H; rewrite FloatAxioms.leb_spec.
  unfold SFeqb, SFleb in *.
  destruct (SFcompare (Prim2SF x) (Prim2SF x)) as [[| |]|]; congruence.
Qed.

(** C6.  For every well-formed store with a positive count the calculator
    returns [100.0 * ((double) triggered / count)], where [triggered] is the
    number of readings at indices [0, count) that are [>=] the trigger level;
    elements at or beyond [count] play no part.  The comparison is inclusive:
    a reading equal to the level triggers.  On samples 10.0, 9.9, 10.0 and
    level 10.0 the count is 2 and the result is the double 66.666... *)
Theorem calculate_counts_inclusive :
  (forall d lvl,
      well_formed d -> (0 < iCount d)%Z ->
      exists d',
        dCalculatePercentageUsage d lvl
        = Ok ((100 * (double_of_int (triggered_count d lvl) / double_of_int (iCount d)))%float,
              d')) /\
  (forall x, PrimFloat.is_nan x = false -> triggers x x = true) /\
  (let d := mkInput 3 ([10; 9.9; 10]%float ++ repeat 0%float 252) in
   triggered_count d 10 = 2%Z /\
   exists pct d',
     dCalculatePercentageUsage d 10 = Ok (pct, d')
     /\ pct = (100 * (2 / 3))%float
     /\ (66.666666 <? pct)%float = true /\ (pct <? 66.666667)%float = true).
Proof.
  split; [|split].
  - intros d lvl Hwf _; unfold dCalculatePercentageUsage.
    rewrite (count_triggered_readings lvl Hwf).
    rewrite (increment_in_range (well_formed_count Hwf)); eexists; reflexivity.
  - intros x Hx; apply ge_double_refl; exact Hx.
  - split; [reflexivity|].
    do 2 eexists; split; [vm_compute; reflexivity|].
    split; [reflexivity|]. split; reflexivity.
Qed.

Lemma calculate_counts_inclusive_witness :
  (exists d',
      dCalculatePercentageUsage
        (mkInput 4 ([1; 20; 15; 5]%float ++ repeat 0%float 251)) 10
      = Ok (50%float, d')) /\
  triggers 10 10 = true.
Proof.
  destruct calculate_counts_inclusive as (Hgen & Hincl & _).
  split.
  - destruct (Hgen (mkInput 4 ([1; 20; 15; 5]%float ++ repeat 0%float 251)) 10%float)
      as (d' & E).
    + split; [reflexivity | cbn; lia].
    + reflexivity.
    + exists d'; exact E.
  - apply Hincl; reflexivity.
Defined.

(** The call leaves the array alone and adds one to the count. *)
Lemma calculate_effect (d : INPUT_DATA) (lvl : float) :
  match dCalculatePercentageUsage d lvl with
  | Ok (_, d') => iCount d' = (iCount d + 1)%Z /\ fInVibration d' = fInVibration d
  | Undefined _ => True
  end.
Proof.
  unfold dCalculatePercentageUsage, increment.
  destruct (count_triggered _ _ _ _ _); [|exact I].
  destruct (iCount d <? INT_MAX)%Z; cbn; auto.
Qed.

(** C1.  [dCalculatePercentageUsage] is not read-only: whenever it returns,
    the store's count has grown by one (the array is unchanged).  On the store
    holding the two readings 10.0 and 5.0 the first call with level 10.0
    returns 50 and leaves the count at 3; the second call on the same store
    then scans three elements and returns 33.33... *)
Theorem calculate_twice_differs :
  (forall d lvl,
      match dCalculatePercentageUsage d lvl with
      | Ok (_, d') => iCount d' = (iCount d + 1)%Z /\ fInVibration d' = fInVibration d
      | Undefined _ => True
      end) /\
  (let d := mkInput 2 ([10; 5]%float ++ repeat 0%float 253) in
   exists d1 d2 pct2,
     dCalculatePercentageUsage d 10 = Ok (50%float, d1)
     /\ iCount d1 = 3%Z
     /\ dCalculatePercentageUsage d1 10 = Ok (pct2, d2)
     /\ pct2 = (100 * (1 / 3))%float
     /\ PrimFloat.eqb pct2 50 = false).
Proof.
  split; [exact calculate_effect|].
  do 3 eexists.
  split; [vm_compute; reflexivity|].
  split; [reflexivity|].
  split; [vm_compute; reflexivity|].
  split; reflexivity.
Qed.

(** C2 as stated fails: on the cleared (empty) store the calculator returns
    normally, and its value is a NaN; [main] on an empty input file writes that
    NaN and returns 0. *)
Lemma calculate_empty_is_nan :
  dCalculatePercentageUsage InputData_cleared DFLT_TRIGGER_LEVEL
  = Ok (PrimFloat.nan, mkInput 1 (fInVibration InputData_cleared))
  /\ PrimFloat.is_nan PrimFloat.nan = true
  /\ main (mkWorld (Some []) true (repeat "x"%char MAX_STRING))
     = Ok (mkExit 0 (Some PrimFloat.nan)).
Proof. split; [|split]; vm_compute; reflexivity. Qed.

(** C2, amended.  For a store whose count is 0 the calculator has no error
    result: it scans no element and returns the value of
    [100.0 * (0.0 / 0)], which is a NaN. *)
Theorem calculate_empty (d : INPUT_DATA) (lvl : float) :
  iCount d = 0%Z ->
  exists d',
    dCalculatePercentageUsage d lvl = Ok ((100 * (0 / 0))%float, d')
    /\ PrimFloat.is_nan (100 * (0 / 0))%float = true.
Proof.
  intros H; unfold dCalculatePercentageUsage; rewrite H.
  eexists; split; reflexivity.
Qed.

Lemma calculate_empty_witness :
  exists d',
    dCalculatePercentageUsage InputData_cleared 10 = Ok ((100 * (0 / 0))%float, d')
    /\ PrimFloat.is_nan (100 * (0 / 0))%float = true.
Proof. apply (calculate_empty InputData_cleared 10); reflexivity. Defined.

(** ** Reading a token into [sTmp] *)

Lemma write_string_fits (tok : list ascii) :
  forall pre old rest tr,
    List.length old = S (List.length tok) ->
    exists evs,
      write_string (List.length pre) tok (Mem.mk (pre ++ old ++ rest) tr)
      = Ok (tt, Mem.mk (pre ++ tok ++ NUL :: rest) (tr ++ evs))
      /\ Forall (write_within (List.length pre + List.length old)) evs.
Proof.
  induction tok as [|c tok IH]; intros pre old rest tr Hlen.
  - destruct old as [|o [|? ?]]; try discriminate Hlen.
    cbn [write_string app]; rewrite store_split by reflexivity.
    eexists; split; [reflexivity|].
    repeat constructor; cbn; lia.
  - destruct old as [|o old']; [discriminate Hlen|].
    cbn [write_string app]; unfold Mem.bind.
    rewrite store_split by reflexivity.
    destruct (IH (pre ++ [c]) old' rest (tr ++ [Mem.Wr (List.length pre) c]))
      as (evs & Hrun & Hevs); [cbn in Hlen; lia|].
    rewrite length_app in Hrun, Hevs; cbn [List.length] in Hrun, Hevs.
    rewrite Nat.add_1_r in Hrun.
    rewrite <- !app_assoc in Hrun; cbn [app] in Hrun.
    rewrite Hrun; eexists; split.
    + reflexivity.
    + constructor; [cbn; lia|].
      eapply Forall_impl; [|exact Hevs].
      intros [a|a x]; cbn; [trivial | lia].
Qed.

Lemma write_string_overflows (old : list ascii) :
  forall tok pre tr,
    List.length old <= List.length tok ->
    write_string (List.length pre) tok (Mem.mk (pre ++ old) tr)
    = Undefined (OutOfBoundsWrite (List.length pre + List.length old)).
Proof.
  induction old as [|o old IH]; intros tok pre tr Hlen.
  - rewrite app_nil_r; cbn [List.length]; rewrite Nat.add_0_r.
    destruct tok as [|c tok]; cbn [write_string]; unfold Mem.bind, Mem.store;
      cbn [Mem.bytes]; rewrite update_out_of_range by lia; reflexivity.
  - destruct tok as [|c tok]; [cbn in Hlen; lia|].
    cbn [write_string]; unfold Mem.bind.
    rewrite store_split by reflexivity.
    replace (pre ++ c :: old) with ((pre ++ [c]) ++ old)
      by (rewrite <- app_assoc; reflexivity).
    replace (S (List.length pre)) with (List.length (pre ++ [c]))
      by (rewrite length_app; cbn; lia).
    rewrite IH by (cbn in Hlen; lia).
    rewrite length_app; cbn [List.length]; do 2 f_equal; lia.
Qed.

(** C8 as stated fails: a token of 64 characters is not rejected; its
    terminating NUL is written at index 64 of the 64-byte buffer. *)
Lemma long_token_overflows :
  ingest (string_of_list_ascii (repeat "7"%char 64))
         (repeat "x"%char MAX_STRING, InputData_cleared)
  = Undefined (OutOfBoundsWrite MAX_STRING).
Proof. vm_compute; reflexivity. Qed.

(** C8, amended.  A token of at most 63 characters is stored whole and
    NUL-terminated at the start of the 64-byte buffer, every write falling
    inside the buffer.  The code makes no length check: for a longer token
    the run is not defined, the first write outside the buffer being the one
    at index 64. *)
Theorem token_fits_buffer (tok sTmp : list ascii) :
  List.length sTmp = MAX_STRING ->
  (List.length tok < MAX_STRING ->
   exists tr,
     run (write_string 0 tok) sTmp
     = Ok (tt, Mem.mk (tok ++ NUL :: skipn (S (List.length tok)) sTmp) tr)
     /\ Forall (write_within MAX_STRING) tr) /\
  (MAX_STRING <= List.length tok ->
   run (write_string 0 tok) sTmp = Undefined (OutOfBoundsWrite MAX_STRING)).
Proof.
  intros Hbuf; split; intros Htok; unfold run.
  - destruct (@write_string_fits tok [] (firstn (S (List.length tok)) sTmp)
                (skipn (S (List.length tok)) sTmp) [])
      as (evs & Hrun & Hevs).
    { rewrite length_firstn; lia. }
    cbn [app List.length] in Hrun; rewrite firstn_skipn in Hrun.
    exists evs; split; [exact Hrun|].
    eapply Forall_impl; [|exact Hevs].
    intros [a|a c]; cbn [write_within]; [trivial|].
    rewrite length_firstn; cbn [List.length]; lia.
  - pose proof (@write_string_overflows sTmp tok [] []) as H.
    cbn [app List.length] in H; rewrite H by lia.
    rewrite Hbuf; reflexivity.
Qed.

Lemma token_fits_buffer_witness :
  (exists tr,
      run (write_string 0 (chars "52.0")) (repeat "x"%char 64)
      = Ok (tt, Mem.mk (chars "52.0" ++ NUL :: skipn 5 (repeat "x"%char 64)) tr)
      /\ Forall (write_within MAX_STRING) tr) /\
  run (write_string 0 (repeat "7"%char 70)) (repeat "x"%char 64)
  = Undefined (OutOfBoundsWrite MAX_STRING).
Proof.
  destruct (@token_fits_buffer (chars "52.0") (repeat "x"%char 64) eq_refl) as [Hfit _].
  destruct (@token_fits_buffer (repeat "7"%char 70) (repeat "x"%char 64) eq_refl) as [_ Hover].
  split.
  - apply Hfit; unfold MAX_STRING; cbn; lia.
  - apply Hover; unfold MAX_STRING; cbn; lia.
Defined.

(** ** Appending to the store *)

(** C3 as stated fails at capacity.  With 255 readings stored, a token that
    converts is written to index 255, outside the array, instead of being
    refused; a token that does not convert leaves the array alone but the
    count still becomes 256. *)
Lemma append_at_capacity_unchecked :
  well_formed full_store
  /\ ingest "0.02" (repeat "x"%char MAX_STRING, full_store)
     = Undefined (OutOfBoundsWrite MAX_INPUT_VALUES)
  /\ ingest "cba" (repeat "x"%char MAX_STRING, full_store)
     = Ok (chars "abc" ++ NUL :: repeat "x"%char 60,
           mkInput 256 (fInVibration full_store)).
Proof.
  split; [split; [reflexivity | cbn; lia]|].
  split; vm_compute; reflexivity.
Qed.

(** C3, amended.  On a well-formed store with fewer than 255 readings,
    appending a converted value succeeds: the value is stored at index
    [count], every other element is unchanged, the count grows by one and the
    store stays well formed. *)
Theorem append_below_capacity (d : INPUT_DATA) (x : float) :
  well_formed d -> (iCount d < Z.of_nat MAX_INPUT_VALUES)%Z ->
  exists a,
    store_reading d (Some x) = Ok (mkInput (iCount d + 1) a)
    /\ nth_error a (Z.to_nat (iCount d)) = Some x
    /\ (forall j, j <> Z.to_nat (iCount d) -> nth_error a j = nth_error (fInVibration d) j)
    /\ well_formed (mkInput (iCount d + 1) a).
Proof.
  intros [Hlen Hcnt] Hlt; unfold store_reading.
  rewrite (increment_in_range (well_formed_count (conj Hlen Hcnt))).
  replace (iCount d <? 0)%Z with false by (symmetry; apply Z.ltb_ge; lia).
  destruct (@update_in_range _ (fInVibration d) (Z.to_nat (iCount d)) x) as (a & Ha);
    [rewrite Hlen; lia|].
  rewrite Ha; exists a.
  split; [reflexivity|].
  split; [eapply update_nth_same; exact Ha|].
  split; [intros j Hj; eapply update_nth_other; eauto|].
  split; cbn [iCount fInVibration].
  - rewrite (update_length _ _ _ Ha); exact Hlen.
  - lia.
Qed.

Lemma append_below_capacity_witness :
  exists a,
    store_reading InputData_cleared (Some 2.5%float) = Ok (mkInput (0 + 1) a)
    /\ nth_error a (Z.to_nat 0) = Some 2.5%float
    /\ (forall j, j <> Z.to_nat 0 ->
                  nth_error a j = nth_error (fInVibration InputData_cleared) j)
    /\ well_formed (mkInput (0 + 1) a).
Proof.
  apply (@append_below_capacity InputData_cleared 2.5%float).
  - split; [reflexivity | cbn; lia].
  - cbn; lia.
Defined.

(** ** The [%lf] directive on words cut short and on bare prefixes *)

(** A sign after the number is left unread and a marker without digits is
    dropped, but the letters of INFINITY cut short and a bare [0x] make the
    directive fail: nothing is converted. *)
Example lf_directive_cases :
  Scan.lf (chars "2.5-") = Some 2.5%float
  /\ Scan.lf (chars "1e") = Some 1%float
  /\ Scan.lf (chars "inf") = Some PrimFloat.infinity
  /\ Scan.lf (chars "infinity") = Some PrimFloat.infinity
  /\ Scan.lf (chars "infinit") = None
  /\ Scan.lf (chars "infinite") = None
  /\ Scan.lf (chars "0x") = None
  /\ Scan.lf (chars "0xg") = None
  /\ Scan.lf (chars "0xp1") = None
  /\ Scan.lf (chars "0x.") = Some 0%float
  /\ Scan.lf (chars ".") = None
  /\ Scan.lf (chars "-") = None
  /\ Scan.lf (chars "") = None.
Proof. repeat split; vm_compute; reflexivity. Qed.

(** ** Decoding a token *)

Lemma c_string_terminated (s rest : list ascii) :
  no_nul s = true -> c_string (s ++ NUL :: rest) = s.
Proof.
  induction s as [|c s IH]; intros H; [reflexivity|].
  cbn in H; apply andb_true_iff in H as [Hc Hs].
  apply negb_true_iff in Hc.
  cbn [app c_string]; rewrite Hc, (IH Hs); reflexivity.
Qed.

(** One iteration of the read loop on a token that fits the buffer: the token
    is reversed in [sTmp], the count grows by one, and the array receives the
    value [%lf] converts from the reversed token, if any. *)
Lemma ingest_spec (tok : string) (sTmp : list ascii) (d : INPUT_DATA) :
  List.length sTmp = MAX_STRING ->
  List.length (chars tok) < MAX_STRING ->
  no_nul (chars tok) = true ->
  well_formed d -> (iCount d < Z.of_nat MAX_INPUT_VALUES)%Z ->
  exists a,
    ingest tok (sTmp, d)
    = Ok (rev (chars tok) ++ NUL :: skipn (S (List.length (chars tok))) sTmp,
          mkInput (iCount d + 1) a)
    /\ match Scan.lf (rev (chars tok)) with
       | Some x => update (fInVibration d) (Z.to_nat (iCount d)) x = Some a
       | None => a = fInVibration d
       end.
Proof.
  intros Hbuf Htok Hnul [Hlen Hcnt] Hlt; unfold ingest.
  destruct (@write_string_fits (chars tok) []
              (firstn (S (List.length (chars tok))) sTmp)
              (skipn (S (List.length (chars tok))) sTmp) [])
    as (tr & Hwrite & _); [rewrite length_firstn; lia|].
  cbn [app List.length] in Hwrite; rewrite firstn_skipn in Hwrite.
  unfold run, Mem.bind; rewrite Hwrite.
  destruct (@strrev_spec [] (chars tok) (skipn (S (List.length (chars tok))) sTmp) tr Hnul)
    as (evs & Hrev & _).
  cbn [app List.length] in Hrev; rewrite Hrev.
  cbn [Mem.bytes skipn].
  rewrite c_string_terminated by (rewrite no_nul_rev; exact Hnul).
  destruct (Scan.lf (rev (chars tok))) as [x|].
  - destruct (@update_in_range _ (fInVibration d) (Z.to_nat (iCount d)) x) as (a & Ha);
      [rewrite Hlen; lia|].
    unfold store_reading.
    rewrite (increment_in_range (well_formed_count (conj Hlen Hcnt))).
    replace (iCount d <? 0)%Z with false by (symmetry; apply Z.ltb_ge; lia).
    rewrite Ha; exists a; split; reflexivity.
  - unfold store_reading.
    rewrite (increment_in_range (well_formed_count (conj Hlen Hcnt))).
    eexists; split; reflexivity.
Qed.

(** C4 as stated fails: the token "-5.2", whose reversal is "2.5-", raises
    no error; the prefix "2.5" is converted and 2.5 is stored as a reading. *)
Lemma trailing_sign_is_accepted :
  ingest "-5.2" (repeat "x"%char MAX_STRING, InputData_cleared)
  = Ok (chars "2.5-" ++ NUL :: repeat "x"%char 59,
        mkInput 1 (2.5%float :: repeat 0%float 254)).
Proof. vm_compute; reflexivity. Qed.

(** C4, amended.  The decoder has no error result: the value returned by
    [sscanf] is not inspected.  For every token that fits the buffer, read
    into a store with room, the read loop goes on normally with the count
    increased by one; the element at index [count] receives the value that
    [%lf] converts from the reversed token, and is left as it was when the
    conversion fails.  The token
    "-5.2" (reversal "2.5-") stores 2.5; the token "cba" stores nothing. *)
Theorem decode_has_no_error (tok : string) (sTmp : list ascii) (d : INPUT_DATA) :
  List.length sTmp = MAX_STRING ->
  List.length (chars tok) < MAX_STRING ->
  no_nul (chars tok) = true ->
  well_formed d -> (iCount d < Z.of_nat MAX_INPUT_VALUES)%Z ->
  (exists buf a,
      ingest tok (sTmp, d) = Ok (buf, mkInput (iCount d + 1) a)
      /\ match Scan.lf (rev (chars tok)) with
         | Some x => update (fInVibration d) (Z.to_nat (iCount d)) x = Some a
         | None => a = fInVibration d
         end)
  /\ Scan.lf (rev (chars "-5.2")) = Some 2.5%float
  /\ Scan.lf (rev (chars "cba")) = None.
Proof.
  intros Hbuf Htok Hnul Hwf Hlt; split; [|split; vm_compute; reflexivity].
  destruct (@ingest_spec tok sTmp d Hbuf Htok Hnul Hwf Hlt) as (a & Hrun & Hval).
  eexists; exists a; split; [exact Hrun | exact Hval].
Qed.

Lemma decode_has_no_error_witness :
  (exists buf a,
      ingest "-5.2" (repeat "x"%char 64, InputData_cleared) = Ok (buf, mkInput (0 + 1) a)
      /\ match Scan.lf (rev (chars "-5.2")) with
         | Some x => update (fInVibration InputData_cleared) (Z.to_nat 0) x = Some a
         | None => a = fInVibration InputData_cleared
         end)
  /\ Scan.lf (rev (chars "-5.2")) = Some 2.5%float
  /\ Scan.lf (rev (chars "cba")) = None.
Proof.
  apply (@decode_has_no_error "-5.2" (repeat "x"%char 64) InputData_cleared).
  - reflexivity.
  - unfold MAX_STRING; cbn; lia.
  - reflexivity.
  - split; [reflexivity | cbn; lia].
  - cbn; lia.
Defined.

(** ** [main] *)

(** The readings 1.0, 20.0, 15.0, 5.0 written reversed give 50 percent. *)
Example main_end_to_end :
  main (mkWorld (Some demo_tokens) true (repeat "x"%char MAX_STRING))
  = Ok (mkExit 0 (Some 50%float)).
Proof. vm_compute; reflexivity. Qed.

(** C5.  [main] returns 0 on a successful run and -1 when the input file
    cannot be opened.  When the input file opens and the output file does not,
    the second test looks at [pInFile] again, the error branch is skipped and
    the run ends in [fprintf] on a NULL stream: no status is returned at all,
    whatever the input holds. *)
Theorem main_exit_status :
  main (mkWorld (Some demo_tokens) true (repeat "x"%char MAX_STRING))
  = Ok (mkExit 0 (Some 50%float))
  /\ (forall out_ok buf, main (mkWorld None out_ok buf) = Ok (mkExit (-1) None))
  /\ main (mkWorld (Some demo_tokens) false (repeat "x"%char MAX_STRING))
     = Undefined NullStream
  /\ (forall toks buf e, main (mkWorld (Some toks) false buf) <> Ok e).
Proof.
  split; [vm_compute; reflexivity|].
  split; [reflexivity|].
  split; [vm_compute; reflexivity|].
  intros toks buf e; unfold main; cbn [input_file output_openable stack_sTmp is_null].
  destruct (ingest_all toks (buf, InputData_cleared)) as [[? d]|]; [|discriminate].
  destruct (dCalculatePercentageUsage d DFLT_TRIGGER_LEVEL) as [[? ?]|]; discriminate.
Qed.

(** * Further properties of the code *)

(** ** [strrev] *)

(** X1.  On a NUL-terminated string [strrev] writes only inside the string:
    the bytes before it, its terminator and the bytes after it are never
    written, the buffer keeps its length and the string keeps its length. *)
Theorem strrev_frame (pre s post : list ascii) :
  no_nul s = true ->
  exists st,
    run (strrev (Some (List.length pre))) (pre ++ s ++ NUL :: post)
    = Ok (Some (List.length pre), st)
    /\ List.length (Mem.bytes st) = List.length (pre ++ s ++ NUL :: post)
    /\ firstn (List.length pre) (Mem.bytes st) = pre
    /\ skipn (List.length pre + List.length s) (Mem.bytes st) = NUL :: post
    /\ c_string (skipn (List.length pre) (Mem.bytes st)) = rev s
    /\ Forall (write_inside (List.length pre) (List.length s)) (Mem.trace st).
Proof.
  intros Hs; unfold run.
  destruct (strrev_spec pre s post [] Hs) as (evs & Hrun & Hevs).
  eexists; split; [exact Hrun|]; cbn [Mem.bytes Mem.trace app].
  split; [rewrite !length_app, length_rev; reflexivity|].
  split; [rewrite firstn_app, firstn_all, Nat.sub_diag; cbn; apply app_nil_r|].
  split.
  { rewrite skipn_app, skipn_all2 by lia; cbn [app].
    replace (List.length pre + List.length s - List.length pre) with (List.length (rev s))
      by (rewrite length_rev; lia).
    rewrite skipn_app, skipn_all, Nat.sub_diag; reflexivity. }
  split.
  { rewrite skipn_app, skipn_all, Nat.sub_diag; cbn [app skipn].
    apply c_string_terminated; rewrite no_nul_rev; exact Hs. }
  eapply Forall_impl; [|exact Hevs].
  intros [a|a c]; unfold spares_middle, write_inside; tauto.
Qed.

Lemma strrev_frame_witness :
  exists st,
    run (strrev (Some 2)) (chars "ab" ++ chars "52.0" ++ NUL :: chars "yz")
    = Ok (Some 2, st)
    /\ List.length (Mem.bytes st) = List.length (chars "ab" ++ chars "52.0" ++ NUL :: chars "yz")
    /\ firstn 2 (Mem.bytes st) = chars "ab"
    /\ skipn (2 + 4) (Mem.bytes st) = NUL :: chars "yz"
    /\ c_string (skipn 2 (Mem.bytes st)) = rev (chars "52.0")
    /\ Forall (write_inside 2 4) (Mem.trace st).
Proof. apply (strrev_frame (chars "ab") (chars "52.0") (chars "yz")); reflexivity. Defined.

Lemma strlen_from_unterminated (s : list ascii) :
  forall pre n budget tr,
    no_nul s = true -> List.length s <= budget ->
    strlen_from budget (List.length pre) n (Mem.mk (pre ++ s) tr)
    = Undefined (OutOfBoundsRead (List.length pre + List.length s)).
Proof.
  induction s as [|c s IH]; intros pre n budget tr Hs Hb.
  - rewrite app_nil_r; cbn [List.length]; rewrite Nat.add_0_r.
    assert (E : Mem.load (List.length pre) (Mem.mk pre tr)
                = Undefined (OutOfBoundsRead (List.length pre))).
    { unfold Mem.load; cbn [Mem.bytes].
      replace (nth_error pre (List.length pre)) with (@None ascii)
        by (symmetry; apply nth_error_None; lia).
      reflexivity. }
    destruct budget; cbn [strlen_from]; unfold Mem.bind; rewrite E; reflexivity.
  - cbn in Hs; apply andb_true_iff in Hs as [Hc Hs].
    apply negb_true_iff in Hc.
    destruct budget as [|b]; [cbn in Hb; lia|].
    cbn [strlen_from]; unfold Mem.bind.
    rewrite load_split by reflexivity; rewrite Hc.
    replace (pre ++ c :: s) with ((pre ++ [c]) ++ s)
      by (rewrite <- app_assoc; reflexivity).
    replace (S (List.length pre)) with (List.length (pre ++ [c]))
      by (rewrite length_app; cbn; lia).
    rewrite IH by (cbn in Hb; auto; lia).
    rewrite length_app; cbn [List.length]; do 2 f_equal; lia.
Qed.

(** X2.  When no NUL follows the position [strrev] is given, the call reads
    past the end of the buffer: the first access outside is the read at the
    buffer's length, made by the emptiness test when the pointer is already
    at the end and by [strlen] otherwise.  Nothing is written before. *)
Theorem strrev_unterminated (pre s : list ascii) (tr : list Mem.event) :
  no_nul s = true ->
  strrev (Some (List.length pre)) (Mem.mk (pre ++ s) tr)
  = Undefined (OutOfBoundsRead (List.length (pre ++ s))).
Proof.
  intros Hs; rewrite length_app; unfold strrev, Mem.bind.
  destruct s as [|c s'].
  - rewrite app_nil_r; cbn [List.length]; rewrite Nat.add_0_r.
    unfold Mem.load; cbn [Mem.bytes].
    replace (nth_error pre (List.length pre)) with (@None ascii)
      by (symmetry; apply nth_error_None; lia).
    reflexivity.
  - rewrite load_split by reflexivity.
    pose proof Hs as Hs'; cbn in Hs'; apply andb_true_iff in Hs' as [Hc _].
    apply negb_true_iff in Hc; rewrite Hc.
    unfold strlen; cbn [Mem.bytes].
    rewrite strlen_from_unterminated; [reflexivity | exact Hs |].
    rewrite length_app; lia.
Qed.

Lemma strrev_unterminated_witness :
  strrev (Some 1) (Mem.mk (chars "#" ++ chars "52.0") [])
  = Undefined (OutOfBoundsRead (List.length (chars "#" ++ chars "52.0"))).
Proof. apply (strrev_unterminated (chars "#") (chars "52.0") []); reflexivity. Defined.

(** X3.  The three XOR assignments exchange the characters at two distinct
    positions [p < q] and leave every other byte of the buffer as it was,
    whatever the two characters are (equal characters included); each of the
    two positions is written, [p] twice and [q] once. *)
Theorem xor_swap_exchanges (pre : list ascii) (x : ascii) (mid : list ascii) (y : ascii)
        (post : list ascii) (p q : nat) :
  p = List.length pre -> q = List.length pre + S (List.length mid) ->
  exists st,
    run (xor_swap p q) (pre ++ x :: mid ++ y :: post) = Ok (tt, st)
    /\ Mem.bytes st = pre ++ y :: mid ++ x :: post
    /\ map (fun e => match e with Mem.Wr a _ => a | Mem.Rd a => a end)
           (Mem.writes (Mem.trace st)) = [p; q; p].
Proof.
  intros Hp Hq; unfold run.
  rewrite (xor_swap_split pre x mid y post [] Hp Hq).
  eexists; split; [reflexivity|]; split; reflexivity.
Qed.

Lemma xor_swap_exchanges_witness :
  exists st,
    run (xor_swap 1 3) (chars "a" ++ "b"%char :: chars "c" ++ "b"%char :: chars "e")
    = Ok (tt, st)
    /\ Mem.bytes st = chars "a" ++ "b"%char :: chars "c" ++ "b"%char :: chars "e"
    /\ map (fun e => match e with Mem.Wr a _ => a | Mem.Rd a => a end)
           (Mem.writes (Mem.trace st)) = [1; 3; 1].
Proof.
  apply (@xor_swap_exchanges (chars "a") "b"%char (chars "c") "b"%char (chars "e") 1 3);
    reflexivity.
Defined.

(** ** The calculator *)

Lemma percentage_table_ok : percentage_table = true.
Proof. vm_compute; reflexivity. Qed.

Lemma percentage_facts (t c : nat) :
  1 <= c <= MAX_INPUT_VALUES -> t <= c ->
  percentage_bounded t c = true
  /\ percentage (Z.of_nat c) (Z.of_nat c) = 100%float
  /\ percentage 0 (Z.of_nat c) = 0%float.
Proof.
  intros Hc Ht.
  pose proof percentage_table_ok as H; unfold percentage_table in H.
  rewrite forallb_forall in H.
  specialize (H c ltac:(apply in_seq; lia)).
  apply andb_true_iff in H as [H H0]; apply andb_true_iff in H as [Hall H100].
  rewrite forallb_forall in Hall.
  split; [apply Hall, in_seq; lia|].
  split; apply FloatAxioms.Leibniz.eqb_spec; assumption.
Qed.

Lemma readings_length (d : INPUT_DATA) :
  well_formed d -> List.length (readings d) = Z.to_nat (iCount d).
Proof.
  intros [Hlen Hcnt]; unfold readings.
  rewrite length_firstn, Hlen; lia.
Qed.

Lemma triggered_count_le (d : INPUT_DATA) (lvl : float) :
  List.length (filter (triggers lvl) (readings d)) <= List.length (readings d).
Proof. apply filter_length_le. Qed.

(** The value and the effect of a call on a well-formed store. *)
Lemma calculate_value (d : INPUT_DATA) (lvl : float) :
  well_formed d ->
  dCalculatePercentageUsage d lvl
  = Ok (percentage (triggered_count d lvl) (iCount d),
        mkInput (iCount d + 1) (fInVibration d)).
Proof.
  intros Hwf; unfold dCalculatePercentageUsage.
  rewrite (count_triggered_readings lvl Hwf).
  rewrite (increment_in_range (well_formed_count Hwf)); reflexivity.
Qed.

Lemma filter_none {A} (f : A -> bool) (l : list A) :
  forallb (fun x => negb (f x)) l = true -> filter f l = [].
Proof.
  induction l as [|x l IH]; [reflexivity|].
  cbn; intros H; apply andb_true_iff in H as [Hx Hl].
  apply negb_true_iff in Hx; rewrite Hx; auto.
Qed.

(** X4.  On a well-formed store that holds at least one reading the returned
    percentage is a number between 0.0 and 100.0 (never a NaN or an
    infinity); it is exactly 100.0 when every stored reading is at or above
    the level and exactly 0.0 when none is. *)
Theorem percentage_in_range (d : INPUT_DATA) (lvl : float) :
  well_formed d -> (0 < iCount d)%Z ->
  exists pct d',
    dCalculatePercentageUsage d lvl = Ok (pct, d')
    /\ PrimFloat.leb 0 pct = true /\ PrimFloat.leb pct 100 = true
    /\ (forallb (triggers lvl) (readings d) = true -> pct = 100%float)
    /\ (forallb (fun r => negb (triggers lvl r)) (readings d) = true -> pct = 0%float).
Proof.
  intros Hwf Hpos; rewrite (calculate_value lvl Hwf).
  do 2 eexists; split; [reflexivity|].
  pose proof (readings_length Hwf) as Hlen.
  pose proof (triggered_count_le d lvl) as Hle.
  destruct Hwf as [_ Hcnt].
  assert (Hc : iCount d = Z.of_nat (Z.to_nat (iCount d))) by lia.
  unfold triggered_count.
  destruct (@percentage_facts (List.length (filter (triggers lvl) (readings d)))
              (Z.to_nat (iCount d))) as (Hb & H100 & H0);
    [lia | lia |].
  unfold percentage_bounded in Hb; cbv zeta in Hb.
  rewrite <- Hc in Hb, H100, H0.
  apply andb_true_iff in Hb as [Hlo Hhi].
  split; [exact Hlo|]. split; [exact Hhi|]. split.
  - intros Hall; rewrite (forallb_filter_id _ _ Hall), Hlen, <- Hc; exact H100.
  - intros Hnone; rewrite (filter_none _ _ Hnone); exact H0.
Qed.

Lemma percentage_in_range_witness :
  exists pct d',
    dCalculatePercentageUsage (store_of [10; 9.5; 12]%float) 10 = Ok (pct, d')
    /\ PrimFloat.leb 0 pct = true /\ PrimFloat.leb pct 100 = true
    /\ (forallb (triggers 10) (readings (store_of [10; 9.5; 12]%float)) = true
        -> pct = 100%float)
    /\ (forallb (fun r => negb (triggers 10 r)) (readings (store_of [10; 9.5; 12]%float)) = true
        -> pct = 0%float).
Proof.
  apply (@percentage_in_range (store_of [10; 9.5; 12]%float) 10).
  - split; [reflexivity | cbn; lia].
  - cbn; lia.
Defined.

(** X5.  The elements at and beyond [iCount] play no part: two well-formed
    stores with the same count and the same readings at indices [0, iCount)
    give the same percentage, whatever the rest of their arrays holds. *)
Theorem calculate_ignores_tail (d1 d2 : INPUT_DATA) (lvl : float) :
  well_formed d1 -> well_formed d2 ->
  iCount d1 = iCount d2 -> readings d1 = readings d2 ->
  exists pct d1' d2',
    dCalculatePercentageUsage d1 lvl = Ok (pct, d1')
    /\ dCalculatePercentageUsage d2 lvl = Ok (pct, d2').
Proof.
  intros H1 H2 Hc Hr.
  rewrite (calculate_value lvl H1), (calculate_value lvl H2).
  unfold triggered_count; rewrite Hr, Hc.
  do 3 eexists; split; reflexivity.
Qed.

Lemma calculate_ignores_tail_witness :
  exists pct d1' d2',
    dCalculatePercentageUsage (store_of [10; 5]%float) 10 = Ok (pct, d1')
    /\ dCalculatePercentageUsage
         (mkInput 2 ([10; 5]%float ++ repeat 99%float 253)) 10 = Ok (pct, d2').
Proof.
  apply (@calculate_ignores_tail (store_of [10; 5]%float)
           (mkInput 2 ([10; 5]%float ++ repeat 99%float 253)) 10).
  - split; [reflexivity | cbn; lia].
  - split; [reflexivity | cbn; lia].
  - reflexivity.
  - reflexivity.
Defined.

Lemma count_triggered_overrun (a : list float) (lvl : float) (n : nat) :
  forall k acc,
    k <= List.length a -> List.length a < k + n ->
    count_triggered n (Z.of_nat k) acc a lvl
    = Undefined (OutOfBoundsRead (List.length a)).
Proof.
  induction n as [|n IH]; intros k acc Hk Hn; [lia|].
  cbn [count_triggered]; rewrite Nat2Z.id.
  destruct (nth_error a k) as [v|] eqn:Ev.
  - assert (k < List.length a) by (apply nth_error_Some; congruence).
    replace (Z.of_nat k + 1)%Z with (Z.of_nat (S k)) by lia.
    apply IH; lia.
  - apply nth_error_None in Ev.
    replace k with (List.length a) by lia; reflexivity.
Qed.

(** X6.  A count larger than the array makes the scan leave the array: the
    call is undefined, its first access outside being the read just past the
    last element; no percentage is returned. *)
Theorem calculate_overrun (d : INPUT_DATA) (lvl : float) :
  (Z.of_nat (List.length (fInVibration d)) < iCount d)%Z ->
  dCalculatePercentageUsage d lvl
  = Undefined (OutOfBoundsRead (List.length (fInVibration d))).
Proof.
  intros H; unfold dCalculatePercentageUsage.
  pose proof (@count_triggered_overrun (fInVibration d) lvl (Z.to_nat (iCount d)) 0 0%Z) as E.
  cbn [Z.of_nat] in E; rewrite E by lia; reflexivity.
Qed.

Lemma calculate_overrun_witness :
  dCalculatePercentageUsage (mkInput 256 (repeat 1%float 255)) 10
  = Undefined (OutOfBoundsRead (List.length (fInVibration (mkInput 256 (repeat 1%float 255))))).
Proof. apply (@calculate_overrun (mkInput 256 (repeat 1%float 255)) 10); cbn; lia. Defined.

(** X7.  On a store that is full (255 readings) the first call returns a
    percentage and leaves the count at 256; a second call on the same store
    then reads [fInVibration[255]], outside the array. *)
Theorem calculate_twice_on_full_store (d : INPUT_DATA) (lvl : float) :
  well_formed d -> iCount d = Z.of_nat MAX_INPUT_VALUES ->
  exists pct d1,
    dCalculatePercentageUsage d lvl = Ok (pct, d1)
    /\ iCount d1 = 256%Z
    /\ dCalculatePercentageUsage d1 lvl = Undefined (OutOfBoundsRead MAX_INPUT_VALUES).
Proof.
  intros Hwf Hfull; rewrite (calculate_value lvl Hwf).
  do 2 eexists; split; [reflexivity|].
  split; [cbn [iCount]; rewrite Hfull; reflexivity|].
  destruct Hwf as [Hlen _].
  unfold dCalculatePercentageUsage; cbn [iCount fInVibration].
  pose proof (@count_triggered_overrun (fInVibration d) lvl (Z.to_nat (iCount d + 1)) 0 0%Z) as E.
  cbn [Z.of_nat] in E; rewrite E by (rewrite ?Hlen, ?Hfull; unfold MAX_INPUT_VALUES; lia).
  rewrite Hlen; reflexivity.
Qed.

Lemma calculate_twice_on_full_store_witness :
  exists pct d1,
    dCalculatePercentageUsage full_store 10 = Ok (pct, d1)
    /\ iCount d1 = 256%Z
    /\ dCalculatePercentageUsage d1 10 = Undefined (OutOfBoundsRead MAX_INPUT_VALUES).
Proof.
  apply (@calculate_twice_on_full_store full_store 10).
  - split; [reflexivity | cbn; lia].
  - reflexivity.
Defined.

Lemma SFcompare_refl (x : spec_float) :
  x <> S754_nan -> SFcompare x x = Some Eq.
Proof.
  destruct x as [s|s| |s m e]; intros H; try congruence; cbn.
  - reflexivity.
  - destruct s; reflexivity.
  - rewrite Z.compare_refl, Pos.compare_cont_refl; destruct s; reflexivity.
Qed.

Lemma is_nan_spec (x : float) : PrimFloat.is_nan x = true -> Prim2SF x = S754_nan.
Proof.
  unfold PrimFloat.is_nan; intros H; apply negb_true_iff in H.
  rewrite FloatAxioms.eqb_spec in H; unfold SFeqb in H.
  destruct (Prim2SF x) eqn:E; try reflexivity;
    rewrite SFcompare_refl in H by discriminate; discriminate.
Qed.

Lemma triggers_nan_reading (lvl r : float) :
  PrimFloat.is_nan r = true -> triggers lvl r = false.
Proof.
  intros H; unfold triggers, ge_double.
  rewrite FloatAxioms.leb_spec, (@is_nan_spec r H); unfold SFleb.
  destruct (Prim2SF lvl); reflexivity.
Qed.

Lemma triggers_nan_level (lvl r : float) :
  PrimFloat.is_nan lvl = true -> triggers lvl r = false.
Proof.
  intros H; unfold triggers, ge_double.
  rewrite FloatAxioms.leb_spec, (@is_nan_spec lvl H); reflexivity.
Qed.

(** X8.  A NaN never counts as use: a stored reading that is a NaN is not
    counted whatever the level, and with a NaN level no reading is counted,
    so that the percentage of a non-empty well-formed store is 0.0. *)
Theorem nan_never_triggers (d : INPUT_DATA) (lvl : float) :
  well_formed d -> (0 < iCount d)%Z ->
  (forall r, PrimFloat.is_nan r = true -> triggers lvl r = false)
  /\ (PrimFloat.is_nan lvl = true ->
      exists d', dCalculatePercentageUsage d lvl = Ok (0%float, d')).
Proof.
  intros Hwf Hpos; split; [intros r; apply triggers_nan_reading|].
  intros Hnan; rewrite (calculate_value lvl Hwf); eexists; f_equal; f_equal.
  unfold triggered_count.
  rewrite filter_none.
  - destruct Hwf as [_ Hcnt].
    destruct (@percentage_facts 0 (Z.to_nat (iCount d))) as (_ & _ & H0); [lia | lia |].
    rewrite Z2Nat.id in H0 by lia; exact H0.
  - apply forallb_forall; intros r _.
    rewrite (@triggers_nan_level lvl r Hnan); reflexivity.
Qed.

Lemma nan_never_triggers_witness :
  (forall r, PrimFloat.is_nan r = true -> triggers PrimFloat.nan r = false)
  /\ (PrimFloat.is_nan PrimFloat.nan = true ->
      exists d', dCalculatePercentageUsage (store_of [10; 20]%float) PrimFloat.nan
                 = Ok (0%float, d')).
Proof.
  apply (@nan_never_triggers (store_of [10; 20]%float) PrimFloat.nan).
  - split; [reflexivity | cbn; lia].
  - cbn; lia.
Defined.

(** ** The read loop *)

(** One iteration on a token that fits the buffer, for any store: the token
    is left reversed in [sTmp] and the store is taken through
    [store_reading] with what [%lf] converts from the reversed token. *)
Lemma ingest_valid (tok : string) (sTmp : list ascii) (d : INPUT_DATA) :
  List.length sTmp = MAX_STRING -> valid_token tok = true ->
  ingest tok (sTmp, d)
  = match store_reading d (Scan.lf (rev (chars tok))) with
    | Ok d' => Ok (rev (chars tok) ++ NUL :: skipn (S (List.length (chars tok))) sTmp, d')
    | Undefined f => Undefined f
    end.
Proof.
  intros Hbuf Hv; unfold valid_token in Hv.
  apply andb_true_iff in Hv as [Htok Hnul]; apply Nat.ltb_lt in Htok.
  unfold ingest.
  destruct (@write_string_fits (chars tok) []
              (firstn (S (List.length (chars tok))) sTmp)
              (skipn (S (List.length (chars tok))) sTmp) [])
    as (tr & Hwrite & _); [rewrite length_firstn; lia|].
  cbn [app List.length] in Hwrite; rewrite firstn_skipn in Hwrite.
  unfold run, Mem.bind; rewrite Hwrite.
  destruct (@strrev_spec [] (chars tok) (skipn (S (List.length (chars tok))) sTmp) tr Hnul)
    as (evs & Hrev & _).
  cbn [app List.length] in Hrev; rewrite Hrev.
  cbn [Mem.bytes skipn].
  rewrite c_string_terminated by (rewrite no_nul_rev; exact Hnul).
  reflexivity.
Qed.

Lemma reversed_buffer_length (tok : string) (sTmp : list ascii) :
  List.length sTmp = MAX_STRING -> valid_token tok = true ->
  List.length (rev (chars tok) ++ NUL :: skipn (S (List.length (chars tok))) sTmp)
  = MAX_STRING.
Proof.
  intros Hbuf Hv; unfold valid_token in Hv.
  apply andb_true_iff in Hv as [Htok _]; apply Nat.ltb_lt in Htok.
  rewrite length_app, length_rev; cbn [List.length]; rewrite length_skipn; lia.
Qed.

Lemma store_reading_store_of (rs : list float) (v : option float) :
  List.length rs < MAX_INPUT_VALUES ->
  store_reading (store_of rs) v
  = Ok (store_of (rs ++ [match v with Some x => x | None => PrimFloat.zero end])).
Proof.
  intros Hlt; unfold store_reading, store_of; cbn [iCount fInVibration].
  rewrite increment_in_range by (unfold INT_MAX, MAX_INPUT_VALUES in *; lia).
  rewrite length_app; cbn [List.length].
  replace (MAX_INPUT_VALUES - List.length rs)
    with (S (MAX_INPUT_VALUES - (List.length rs + 1))) by lia.
  cbn [repeat].
  replace (Z.of_nat (List.length rs) + 1)%Z with (Z.of_nat (List.length rs + 1)) by lia.
  destruct v as [x|].
  - replace (Z.of_nat (List.length rs) <? 0)%Z with false
      by (symmetry; apply Z.ltb_ge; lia).
    rewrite Nat2Z.id, update_split, <- app_assoc; reflexivity.
  - rewrite <- app_assoc; reflexivity.
Qed.

Lemma ingest_all_store_of (toks : list string) :
  forall rs buf,
    List.length buf = MAX_STRING -> forallb valid_token toks = true ->
    List.length rs + List.length toks <= MAX_INPUT_VALUES ->
    exists buf',
      ingest_all toks (buf, store_of rs) = Ok (buf', store_of (rs ++ map decoded toks))
      /\ List.length buf' = MAX_STRING.
Proof.
  induction toks as [|tok toks IH]; intros rs buf Hbuf Hv Hn.
  - exists buf; cbn; rewrite app_nil_r; auto.
  - cbn in Hv; apply andb_true_iff in Hv as [Htok Hv]; cbn [List.length] in Hn.
    cbn [ingest_all]; rewrite (@ingest_valid tok buf (store_of rs) Hbuf Htok).
    rewrite store_reading_store_of by lia.
    destruct (IH (rs ++ [decoded tok])
                 (rev (chars tok) ++ NUL :: skipn (S (List.length (chars tok))) buf))
      as (buf' & Hrun & Hlen);
      [apply reversed_buffer_length; assumption | exact Hv
       | rewrite length_app; cbn; lia |].
    fold (decoded tok); rewrite Hrun.
    exists buf'; split; [|exact Hlen].
    cbn [map]; rewrite <- app_assoc; reflexivity.
Qed.

Lemma store_of_well_formed (rs : list float) :
  List.length rs <= MAX_INPUT_VALUES -> well_formed (store_of rs).
Proof.
  intros H; split; cbn [store_of iCount fInVibration].
  - rewrite length_app, repeat_length; lia.
  - lia.
Qed.

Lemma store_of_readings (rs : list float) : readings (store_of rs) = rs.
Proof.
  unfold readings, store_of; cbn [iCount fInVibration].
  rewrite Nat2Z.id, firstn_app, firstn_all, Nat.sub_diag; cbn; apply app_nil_r.
Qed.

(** X9.  The read loop on at most 255 tokens that fit the buffer, started on
    the cleared store, ends normally with a well-formed store whose count is
    the number of tokens and whose readings are, in input order, the values
    converted from the reversed tokens; a token whose reversal converts to
    nothing is counted all the same and reads as 0.0, and the elements beyond
    the count are still zero. *)
Theorem read_loop_result (toks : list string) (buf : list ascii) :
  List.length buf = MAX_STRING -> forallb valid_token toks = true ->
  List.length toks <= MAX_INPUT_VALUES ->
  exists buf' d,
    ingest_all toks (buf, InputData_cleared) = Ok (buf', d)
    /\ well_formed d
    /\ iCount d = Z.of_nat (List.length toks)
    /\ readings d = map decoded toks
    /\ fInVibration d
       = map decoded toks ++ repeat PrimFloat.zero (MAX_INPUT_VALUES - List.length toks).
Proof.
  intros Hbuf Hv Hn.
  destruct (@ingest_all_store_of toks [] buf Hbuf Hv Hn) as (buf' & Hrun & _).
  change (store_of []) with InputData_cleared in Hrun; cbn [app] in Hrun.
  exists buf', (store_of (map decoded toks)); split; [exact Hrun|].
  split; [apply store_of_well_formed; rewrite length_map; exact Hn|].
  split; [cbn; rewrite length_map; reflexivity|].
  split; [apply store_of_readings|].
  cbn [store_of fInVibration]; rewrite length_map; reflexivity.
Qed.

Lemma read_loop_result_witness :
  exists buf' d,
    ingest_all ["0.1"; "cba"; "-5.2"]%string (repeat "x"%char 64, InputData_cleared)
    = Ok (buf', d)
    /\ well_formed d
    /\ iCount d = Z.of_nat (List.length ["0.1"; "cba"; "-5.2"]%string)
    /\ readings d = map decoded ["0.1"; "cba"; "-5.2"]%string
    /\ fInVibration d
       = map decoded ["0.1"; "cba"; "-5.2"]%string
         ++ repeat PrimFloat.zero
              (MAX_INPUT_VALUES - List.length ["0.1"; "cba"; "-5.2"]%string).
Proof.
  apply (@read_loop_result ["0.1"; "cba"; "-5.2"]%string (repeat "x"%char 64)).
  - reflexivity.
  - reflexivity.
  - unfold MAX_INPUT_VALUES; cbn; lia.
Defined.

Lemma ingest_all_app (l1 l2 : list string) (st : list ascii * INPUT_DATA) :
  ingest_all (l1 ++ l2) st
  = match ingest_all l1 st with
    | Ok st' => ingest_all l2 st'
    | Undefined f => Undefined f
    end.
Proof.
  revert st; induction l1 as [|t l1 IH]; intros st; [reflexivity|].
  cbn [app ingest_all]; destruct (ingest t st); [apply IH | reflexivity].
Qed.

(** X10.  The read loop has no capacity test: when the input holds more than
    255 tokens and the 256th converts to a value, that value is written to
    [fInVibration[255]], outside the array, whatever follows in the input;
    the run of [main] is undefined at that point. *)
Theorem read_loop_overflow (first : list string) (tok : string) (rest : list string)
        (buf : list ascii) (x : float) (out_ok : bool) :
  List.length buf = MAX_STRING ->
  forallb valid_token first = true -> valid_token tok = true ->
  List.length first = MAX_INPUT_VALUES ->
  Scan.lf (rev (chars tok)) = Some x ->
  ingest_all (first ++ tok :: rest) (buf, InputData_cleared)
  = Undefined (OutOfBoundsWrite MAX_INPUT_VALUES)
  /\ main (mkWorld (Some (first ++ tok :: rest)) out_ok buf)
     = Undefined (OutOfBoundsWrite MAX_INPUT_VALUES).
Proof.
  intros Hbuf Hfirst Htok Hlen Hx.
  assert (E : ingest_all (first ++ tok :: rest) (buf, InputData_cleared)
              = Undefined (OutOfBoundsWrite MAX_INPUT_VALUES)).
  { rewrite ingest_all_app.
    destruct (@ingest_all_store_of first [] buf Hbuf Hfirst) as (buf' & Hrun & Hbuf');
      [cbn; lia|].
    change (store_of []) with InputData_cleared in Hrun; rewrite Hrun.
    cbn [ingest_all app]; rewrite (@ingest_valid tok buf' _ Hbuf' Htok), Hx.
    unfold store_reading, store_of; cbn [iCount fInVibration].
    rewrite length_map, Hlen, Nat.sub_diag; cbn [repeat]; rewrite app_nil_r.
    rewrite increment_in_range by (unfold INT_MAX, MAX_INPUT_VALUES; lia).
    replace (Z.of_nat MAX_INPUT_VALUES <? 0)%Z with false by reflexivity.
    rewrite Nat2Z.id, update_out_of_range by (rewrite length_map; lia).
    reflexivity. }
  split; [exact E|].
  unfold main; cbn [input_file output_openable stack_sTmp is_null].
  rewrite E; reflexivity.
Qed.

Lemma read_loop_overflow_witness :
  ingest_all (repeat "0.1"%string 255 ++ "0.02"%string :: ["junk"%string])
             (repeat "x"%char 64, InputData_cleared)
  = Undefined (OutOfBoundsWrite MAX_INPUT_VALUES)
  /\ main (mkWorld (Some (repeat "0.1"%string 255 ++ "0.02"%string :: ["junk"%string]))
                   true (repeat "x"%char 64))
     = Undefined (OutOfBoundsWrite MAX_INPUT_VALUES).
Proof.
  apply (@read_loop_overflow (repeat "0.1"%string 255) "0.02"%string ["junk"%string]
           (repeat "x"%char 64) 20%float true).
  - reflexivity.
  - vm_compute; reflexivity.
  - reflexivity.
  - reflexivity.
  - vm_compute; reflexivity.
Defined.

(** ** [main] end to end *)

(** X11.  With both files opened and an input of at most 255 tokens that fit
    the buffer, [main] returns 0 and writes one value,
    [100.0 * ((double) t / n)], where [n] is the number of tokens and [t] the
    number of tokens whose decoded value is at or above the trigger level
    10.0.  (For an empty input this value is the NaN of [0.0 / 0].) *)
Theorem main_computes_usage (toks : list string) (buf : list ascii) :
  List.length buf = MAX_STRING -> forallb valid_token toks = true ->
  List.length toks <= MAX_INPUT_VALUES ->
  main (mkWorld (Some toks) true buf)
  = Ok (mkExit 0
          (Some (percentage
                   (Z.of_nat (List.length
                                (filter (triggers DFLT_TRIGGER_LEVEL) (map decoded toks))))
                   (Z.of_nat (List.length toks))))).
Proof.
  intros Hbuf Hv Hn.
  destruct (@ingest_all_store_of toks [] buf Hbuf Hv Hn) as (buf' & Hrun & _).
  change (store_of []) with InputData_cleared in Hrun; cbn [app] in Hrun.
  unfold main; cbn [input_file output_openable stack_sTmp is_null].
  rewrite Hrun.
  rewrite calculate_value
    by (apply store_of_well_formed; rewrite length_map; exact Hn).
  unfold triggered_count; rewrite store_of_readings.
  cbn [store_of iCount]; rewrite length_map; reflexivity.
Qed.

Lemma main_computes_usage_witness :
  main (mkWorld (Some ["0.1"; "0.02"; "cba"]%string) true (repeat "x"%char 64))
  = Ok (mkExit 0
          (Some (percentage
                   (Z.of_nat (List.length
                                (filter (triggers DFLT_TRIGGER_LEVEL)
                                        (map decoded ["0.1"; "0.02"; "cba"]%string))))
                   (Z.of_nat (List.length ["0.1"; "0.02"; "cba"]%string))))).
Proof.
  apply (@main_computes_usage ["0.1"; "0.02"; "cba"]%string (repeat "x"%char 64)).
  - reflexivity.
  - reflexivity.
  - unfold MAX_INPUT_VALUES; cbn; lia.
Defined.

Lemma ingest_all_same_store (toks : list string) :
  forall b1 b2 d,
    List.length b1 = MAX_STRING -> List.length b2 = MAX_STRING ->
    forallb valid_token toks = true ->
    (exists b1' b2' d',
        ingest_all toks (b1, d) = Ok (b1', d') /\ ingest_all toks (b2, d) = Ok (b2', d'))
    \/ (exists f,
           ingest_all toks (b1, d) = Undefined f /\ ingest_all toks (b2, d) = Undefined f).
Proof.
  induction toks as [|tok toks IH]; intros b1 b2 d H1 H2 Hv.
  - left; exists b1, b2, d; split; reflexivity.
  - cbn in Hv; apply andb_true_iff in Hv as [Htok Hv].
    cbn [ingest_all].
    rewrite (@ingest_valid tok b1 d H1 Htok), (@ingest_valid tok b2 d H2 Htok).
    destruct (store_reading d (Scan.lf (rev (chars tok)))) as [d'|f].
    + apply IH; [apply reversed_buffer_length | apply reversed_buffer_length |];
        assumption.
    + right; exists f; split; reflexivity.
Qed.

(** X12.  [sTmp] is never read before it is written: for an input whose
    tokens fit the buffer, the outcome of [main] (returned status and written
    value, or the fault met) does not depend on what the uninitialised buffer
    holds at entry. *)
Theorem main_ignores_stack_garbage (toks : list string) (out_ok : bool)
        (b1 b2 : list ascii) :
  List.length b1 = MAX_STRING -> List.length b2 = MAX_STRING ->
  forallb valid_token toks = true ->
  main (mkWorld (Some toks) out_ok b1) = main (mkWorld (Some toks) out_ok b2).
Proof.
  intros H1 H2 Hv.
  unfold main; cbn [input_file output_openable stack_sTmp is_null].
  destruct (@ingest_all_same_store toks b1 b2 InputData_cleared H1 H2 Hv)
    as [(b1' & b2' & d' & -> & ->) | (f & -> & ->)]; reflexivity.
Qed.

Lemma main_ignores_stack_garbage_witness :
  main (mkWorld (Some demo_tokens) true (repeat "x"%char 64))
  = main (mkWorld (Some demo_tokens) true (chars "9.99" ++ repeat NUL 60)).
Proof.
  apply (@main_ignores_stack_garbage demo_tokens true
           (repeat "x"%char 64) (chars "9.99" ++ repeat NUL 60));
    reflexivity.
Defined.

(** X13.  Whenever [main] returns, its status is -1 or 0: it is -1 exactly
    when the input file could not be opened, and then nothing is written; it
    is 0 only when both files were opened, and then exactly one value has been
    written. *)
Theorem main_return_values (w : world) (e : exit) :
  main w = Ok e ->
  (input_file w = None /\ e = mkExit (-1) None)
  \/ (exists toks pct,
         input_file w = Some toks /\ output_openable w = true
         /\ e = mkExit 0 (Some pct)).
Proof.
  unfold main; destruct w as [[toks|] out buf];
    cbn [input_file output_openable stack_sTmp is_null]; intros H.
  - right.
    destruct (ingest_all toks (buf, InputData_cleared)) as [[? d]|]; [|discriminate H].
    destruct (dCalculatePercentageUsage d DFLT_TRIGGER_LEVEL) as [[pct ?]|];
      [|discriminate H].
    destruct out; cbn [is_null] in H; [|discriminate H].
    injection H as <-; exists toks, pct; auto.
  - left; injection H as <-; auto.
Qed.

Lemma main_return_values_witness :
  (input_file (mkWorld (Some demo_tokens) true (repeat "x"%char 64)) = None
   /\ mkExit 0 (Some 50%float) = mkExit (-1) None)
  \/ (exists toks pct,
         input_file (mkWorld (Some demo_tokens) true (repeat "x"%char 64)) = Some toks
         /\ output_openable (mkWorld (Some demo_tokens) true (repeat "x"%char 64)) = true
         /\ mkExit 0 (Some 50%float) = mkExit 0 (Some pct)).
Proof.
  apply (@main_return_values (mkWorld (Some demo_tokens) true (repeat "x"%char 64))
           (mkExit 0 (Some 50%float))).
  vm_compute; reflexivity.
Defined.
